(** * On-the-fly SSA construction (Braun et al.): a model of [ssa_alg.py]

    The Python module keeps a graph of IR objects that refer to each other
    by identity and are mutated in place.  The model below keeps every
    object in a store and refers to it by a handle; object identity ([is])
    is equality of handles.  Every function of the module becomes a
    computation in a state-and-exception monad over that store, with a fuel
    argument for the recursion between the readers.

    The classes of the module are declared with [@dataclass]: what such a
    class generates ([__init__] over the declared fields, [__eq__] field by
    field, no [__hash__]) is part of what the module does, and is modelled
    with it. *)

From stdpp Require Import gmap strings list fin_maps.

Set Default Proof Using "Type".

(** ** The data model *)

(** Handle of a [Value] object. *)
Abbreviation addr := nat (only parsing).

(** Handle of a [Block] object. *)
Abbreviation blockref := nat (only parsing).

(** The [Value] subclasses that are stored as operands: [Undef],
    [Operation(name, operands)] and [Phi(name, operands, block, users)]. *)
Inductive IRNode :=
| Undef
| Operation (name : string) (operands : list addr)
| Phi (name : string) (operands : list addr) (block : blockref)
      (users : list addr).

(** [Variable]: a lookup key.  [var_id] is the identity of the object,
    [name] the attribute the def-map is keyed by. *)
Record variable := MkVariable { var_id : nat; name : string }.

#[global] Instance variable_eq_dec : EqDecision variable.
Proof. solve_decision. Defined.

(** *** Python dicts

    A dict keeps its entries in insertion order, which is the order it is
    iterated and compared in. *)

(** [d[k]]. *)
Fixpoint dict_get {K} `{EqDecision K} (k : K) (d : list (K * addr))
    : option addr :=
  match d with
  | [] => None
  | (k', v') :: rest => if decide (k' = k) then Some v' else dict_get k rest
  end.

(** [d[k] = v]: an existing key keeps its place, a new one goes last. *)
Fixpoint dict_set {K} `{EqDecision K} (k : K) (v : addr)
    (d : list (K * addr)) : list (K * addr) :=
  match d with
  | [] => [(k, v)]
  | (k', v') :: rest =>
      if decide (k' = k) then (k, v) :: rest else (k', v') :: dict_set k v rest
  end.

(** A def-map: a dict from names to values. *)
Record pydict := PyDict { items : list (string * addr) }.

#[global] Instance pydict_lookup : Lookup string nat pydict :=
  λ k d, dict_get k (items d).

#[global] Instance pydict_insert : Insert string nat pydict :=
  λ k v d, PyDict (dict_set k v (items d)).

#[global] Instance pydict_empty : Empty pydict := PyDict [].

#[global] Instance pydict_singleton : SingletonM string nat pydict :=
  λ k v, PyDict [(k, v)].

(** [Block(preds, defs, sealed)].  [preds] is indexed ([preds[0]]) and
    iterated, hence a sequence; [defs] is a dict keyed by [variable.name]. *)
Record Block := MkBlock {
  preds : list blockref;
  defs : pydict;
  sealed : bool
}.

(** An inner dict of [incompletePhis]: keys are [Variable] objects. *)
Abbreviation pending := (list (variable * addr)) (only parsing).

(** The whole mutable world: the objects, the blocks, and the module-level
    [incompletePhis] dict of dicts. *)
Record state := MkState {
  nodes : list IRNode;
  blocks : list Block;
  incompletePhis : gmap blockref pending
}.

Definition set_nodes (f : list IRNode → list IRNode) (s : state) : state :=
  MkState (f (nodes s)) (blocks s) (incompletePhis s).

Definition set_blocks (f : list Block → list Block) (s : state) : state :=
  MkState (nodes s) (f (blocks s)) (incompletePhis s).

Definition set_incompletePhis
    (f : gmap blockref pending → gmap blockref pending) (s : state) : state :=
  MkState (nodes s) (blocks s) (f (incompletePhis s)).

(** ** Exceptions and the monad *)

(** The Python exceptions the module can run into.  [Dangling] is not a
    Python exception: it is raised when a handle denotes no object of the
    store, which no Python reference can do. *)
Inductive exn :=
| KeyError
| ValueError
| TypeError
| UnboundLocalError
| AttributeError
| IndexError
| Dangling.

Inductive outcome (A : Type) :=
| Ok (a : A)
| Raise (e : exn)
| OutOfFuel.
Arguments Ok {A} a.
Arguments Raise {A} e.
Arguments OutOfFuel {A}.

(** A computation runs on a state and ends in an outcome and the state it
    left behind: an exception does not undo the mutations made before it. *)
Definition M (A : Type) : Type := state → outcome A * state.

Definition ret {A} (a : A) : M A := λ s, (Ok a, s).

Definition bind {A B} (c : M A) (k : A → M B) : M B :=
  λ s, match c s with
       | (Ok a, s') => k a s'
       | (Raise e, s') => (Raise e, s')
       | (OutOfFuel, s') => (OutOfFuel, s')
       end.

Definition raise {A} (e : exn) : M A := λ s, (Raise e, s).

Definition out_of_fuel {A} : M A := λ s, (OutOfFuel, s).

Definition modify (f : state → state) : M unit := λ s, (Ok tt, f s).

Declare Scope ssa_scope.
Delimit Scope ssa_scope with ssa.
Notation "'let*' x ':=' c 'in' k" := (bind c (λ x, k))
  (at level 10, x name, c at level 100, k at level 200,
   format "'[v' 'let*'  x  ':='  c  'in' '/' k ']'") : ssa_scope.
Notation "c '>>' k" := (bind c (λ _, k))
  (at level 100, k at level 200, right associativity,
   format "'[v' c  '>>' '/' k ']'") : ssa_scope.
Open Scope ssa_scope.

(** [for x in l: body(x)] over a list that the body does not resize. *)
Fixpoint for_each {A} (l : list A) (body : A → M unit) : M unit :=
  match l with
  | [] => ret tt
  | x :: rest => body x >> for_each rest body
  end.

(** ** Object access *)

Definition lookup_node (a : addr) : M IRNode :=
  λ s, match nodes s !! a with
       | Some nd => (Ok nd, s)
       | None => (Raise Dangling, s)
       end.

Definition store_node (a : addr) (nd : IRNode) : M unit :=
  modify (set_nodes (λ h, <[a := nd]> h)).

Definition lookup_block (b : blockref) : M Block :=
  λ s, match blocks s !! b with
       | Some blk => (Ok blk, s)
       | None => (Raise Dangling, s)
       end.

Definition store_block (b : blockref) (blk : Block) : M unit :=
  modify (set_blocks (λ bs, <[b := blk]> bs)).

(** Allocation of a new object: its handle is the next free one. *)
Definition alloc (nd : IRNode) : M addr :=
  λ s, (Ok (length (nodes s)), set_nodes (λ h, h ++ [nd]) s).

(** [x.operands]: an attribute of [Operation] and [Phi]. *)
Definition get_operands (a : addr) : M (list addr) :=
  let* nd := lookup_node a in
  match nd with
  | Undef => raise AttributeError
  | Operation _ ops => ret ops
  | Phi _ ops _ _ => ret ops
  end.

(** [x.users]: an attribute of [Phi] only. *)
Definition get_users (a : addr) : M (list addr) :=
  let* nd := lookup_node a in
  match nd with
  | Phi _ _ _ us => ret us
  | _ => raise AttributeError
  end.

(** [x.block]: an attribute of [Phi] only. *)
Definition get_block (a : addr) : M blockref :=
  let* nd := lookup_node a in
  match nd with
  | Phi _ _ b _ => ret b
  | _ => raise AttributeError
  end.

(** [isinstance(x, Phi)]. *)
Definition isinstance_Phi (a : addr) : M bool :=
  let* nd := lookup_node a in
  match nd with
  | Phi _ _ _ _ => ret true
  | _ => ret false
  end.

(** The constructor call [Phi(block)] of lines 96 and 102.  Class [Phi]
    (lines 50-53) declares the fields [block] and [users] and inherits
    [name] and [operands] from [Operation] (lines 45-48); none has a
    default, so the [__init__] that [@dataclass] generates takes all four,
    and the call with one argument raises [TypeError] before any object
    exists. *)
Definition new_Phi (block : blockref) : M addr := raise TypeError.

(** [Undef()]: the class has no field; a new object on every call. *)
Definition new_Undef : M addr := alloc Undef.

(** [Phi.appendOperand]: [self.operands.append(operand)], nothing else. *)
Definition appendOperand (self operand : addr) : M unit :=
  let* nd := lookup_node self in
  match nd with
  | Phi nm ops b us => store_node self (Phi nm (ops ++ [operand]) b us)
  | _ => raise AttributeError
  end.

(** [Phi.replaceBy]: the body is [pass]. *)
Definition replaceBy (self replacement : addr) : M unit := ret tt.

(** ** Algorithm 1: local value numbering *)

(** [block.defs[variable.name] = value]. *)
Definition writeVariable (variable : variable) (block : blockref)
    (value : addr) : M unit :=
  let* b := lookup_block block in
  store_block block
    (MkBlock (preds b) (<[name variable := value]> (defs b)) (sealed b)).

(** ** The pending-phi registry *)

(** [incompletePhis[block]].  A subscript hashes its key before it looks
    anything up, and [Block] (lines 68-73) is declared with [@dataclass],
    which generates [__eq__] and with it sets [__hash__] to [None]:
    the subscript raises [TypeError] for every block, whatever the dict
    holds. *)
Definition registry_get (block : blockref) : M pending := raise TypeError.

(** [incompletePhis[block][variable] = phi]. *)
Definition registry_set (block : blockref) (variable : variable)
    (phi : addr) : M unit :=
  let* d := registry_get block in
  modify (set_incompletePhis (λ r, <[block := dict_set variable phi d]> r)).

(** [incompletePhis[block][variable]]. *)
Definition registry_lookup (block : blockref) (variable : variable)
    : M addr :=
  let* d := registry_get block in
  match dict_get variable d with
  | Some phi => ret phi
  | None => raise KeyError
  end.

(** ** Equality of objects

    [list.remove] finds its element with [==] after [is].  On the classes
    of the module [==] is the [__eq__] that [@dataclass] generates: two
    objects of one class are equal when their fields are, compared in
    the order of declaration up to the first pair that differs; objects of
    different classes are not equal.  Lists are equal when they have one
    length and equal items, dicts when they have one size and every key of
    the left one is in the right one with an equal value.  Inside lists
    and dicts an item that [is] the other counts as equal without [==].
    The comparison follows the references of the graph and need not end;
    [n] bounds its depth. *)

(** Items of two lists, pair by pair up to the first that differ. *)
Fixpoint all2 (cmp : addr → addr → outcome bool) (l1 l2 : list addr)
    : outcome bool :=
  match l1, l2 with
  | a :: l1, b :: l2 =>
      match cmp a b with
      | Ok true => all2 cmp l1 l2
      | r => r
      end
  | _, _ => Ok true
  end.

(** [l1 == l2] on lists. *)
Definition eq_list (cmp : addr → addr → outcome bool) (l1 l2 : list addr)
    : outcome bool :=
  if length l1 =? length l2 then all2 cmp l1 l2 else Ok false.

(** The entries of the left dict, in its order, against the right one. *)
Fixpoint eq_items (cmp : addr → addr → outcome bool)
    (d1 d2 : list (string * addr)) : outcome bool :=
  match d1 with
  | [] => Ok true
  | (k, v1) :: rest =>
      match dict_get k d2 with
      | None => Ok false
      | Some v2 =>
          match cmp v1 v2 with
          | Ok true => eq_items cmp rest d2
          | r => r
          end
      end
  end.

(** [d1 == d2] on dicts. *)
Definition eq_dict (cmp : addr → addr → outcome bool) (d1 d2 : pydict)
    : outcome bool :=
  if length (items d1) =? length (items d2)
  then eq_items cmp (items d1) (items d2)
  else Ok false.

(** [a is b or a == b] on values ([py_eq]) and on blocks
    ([py_eq_block]). *)
Fixpoint py_eq (n : nat) (s : state) (a b : addr) {struct n}
    : outcome bool :=
  if decide (a = b) then Ok true else
  match n with
  | 0 => OutOfFuel
  | S n =>
      match nodes s !! a, nodes s !! b with
      | Some Undef, Some Undef => Ok true
      | Some (Operation nm1 ops1), Some (Operation nm2 ops2) =>
          if String.eqb nm1 nm2 then eq_list (py_eq n s) ops1 ops2
          else Ok false
      | Some (Phi nm1 ops1 b1 us1), Some (Phi nm2 ops2 b2 us2) =>
          if String.eqb nm1 nm2 then
            match eq_list (py_eq n s) ops1 ops2 with
            | Ok true =>
                match py_eq_block n s b1 b2 with
                | Ok true => eq_list (py_eq n s) us1 us2
                | r => r
                end
            | r => r
            end
          else Ok false
      | Some _, Some _ => Ok false
      | _, _ => Raise Dangling
      end
  end
with py_eq_block (n : nat) (s : state) (b1 b2 : blockref) {struct n}
    : outcome bool :=
  if decide (b1 = b2) then Ok true else
  match n with
  | 0 => OutOfFuel
  | S n =>
      match blocks s !! b1, blocks s !! b2 with
      | Some blk1, Some blk2 =>
          match eq_list (py_eq_block n s) (preds blk1) (preds blk2) with
          | Ok true =>
              match eq_dict (py_eq n s) (defs blk1) (defs blk2) with
              | Ok true => Ok (eqb (sealed blk1) (sealed blk2))
              | r => r
              end
          | r => r
          end
      | _, _ => Raise Dangling
      end
  end.

(** [l.remove(x)] on a Python list, [eq item] being [item is x or
    item == x]: the first item that is equal goes; [Ok None] stands for
    the [ValueError] of finding none. *)
Fixpoint list_remove (eq : addr → outcome bool) (l : list addr)
    : outcome (option (list addr)) :=
  match l with
  | [] => Ok None
  | item :: rest =>
      match eq item with
      | Ok true => Ok (Some rest)
      | Ok false =>
          match list_remove eq rest with
          | Ok (Some rest') => Ok (Some (item :: rest'))
          | r => r
          end
      | Raise e => Raise e
      | OutOfFuel => OutOfFuel
      end
  end.

(** ** Algorithm 3: the scan of [tryRemoveTrivialPhi] *)

(** How the [for op in phi.operands] loop ends: by [return phi], or by
    running off the list with [same] bound to [None] or to an operand. *)
Inductive scan_result :=
| NonTrivial
| Same (same : option addr).

Fixpoint scan_operands (phi : addr) (same : option addr)
    (ops : list addr) : scan_result :=
  match ops with
  | [] => Same same
  | op :: rest =>
      if bool_decide (same = Some op) || bool_decide (op = phi)
      then scan_operands phi same rest
      else match same with
           | Some _ => NonTrivial
           | None => scan_operands phi (Some op) rest
           end
  end.

(** What a local name may be bound to where the source binds it to the
    result of a call made for its effect. *)
Inductive pyobj :=
| PyNone
| PyList (l : list addr).

(** [phi.users.remove(x)]: mutates the list in place and, like every
    [list.remove], evaluates to [None]. *)
Definition users_remove (n : nat) (phi x : addr) : M pyobj :=
  let* nd := lookup_node phi in
  match nd with
  | Phi nm ops b us =>
      λ s, match list_remove (λ item, py_eq n s item x) us with
           | Ok (Some us') =>
               (store_node phi (Phi nm ops b us') >> ret PyNone) s
           | Ok None => (Raise ValueError, s)
           | Raise e => (Raise e, s)
           | OutOfFuel => (OutOfFuel, s)
           end
  | _ => raise AttributeError
  end.

(** The start of [for use in users]: [None] is not iterable. *)
Definition iterate (o : pyobj) : M (list addr) :=
  match o with
  | PyNone => raise TypeError
  | PyList l => ret l
  end.

Fixpoint tryRemoveTrivialPhi (n : nat) (phi : addr) : M addr :=
  match n with
  | 0 => out_of_fuel
  | S n =>
      let* ops := get_operands phi in
      match scan_operands phi None ops with
      | NonTrivial => ret phi
      | Same same =>
          let* same := match same with
                       | None => new_Undef
                       | Some op => ret op
                       end in
          let* users := users_remove n phi phi in
          replaceBy phi same >>
          let* uses := iterate users in
          for_each uses (λ use,
            let* is_phi := isinstance_Phi use in
            if is_phi then tryRemoveTrivialPhi n use >> ret tt
            else ret tt) >>
          ret same
      end
  end.

(** ** Algorithm 2: global value numbering *)

(** A read of the local name [val], which only some branches bind. *)
Definition local (val : option addr) : M addr :=
  match val with
  | Some x => ret x
  | None => raise UnboundLocalError
  end.

(** [block.preds[0]]. *)
Definition first_pred (b : Block) : M blockref :=
  match preds b with
  | p :: _ => ret p
  | [] => raise IndexError
  end.

Fixpoint readVariable (n : nat) (variable : variable) (block : blockref)
    {struct n} : M addr :=
  match n with
  | 0 => out_of_fuel
  | S n =>
      let* b := lookup_block block in
      match defs b !! name variable with
      | Some x => ret x
      | None => readVariableRecursive n variable block
      end
  end
with readVariableRecursive (n : nat) (variable : variable)
    (block : blockref) {struct n} : M addr :=
  match n with
  | 0 => out_of_fuel
  | S n =>
      let* b := lookup_block block in
      let* val :=
        if negb (sealed b) then
          let* phi := new_Phi block in
          registry_set block variable phi >>
          ret None
        else if length (preds b) =? 1 then
          let* p := first_pred b in
          let* val := readVariable n variable p in
          ret (Some val)
        else
          let* val := new_Phi block in
          writeVariable variable block val >>
          let* val := addPhiOperands n variable val in
          ret (Some val) in
      let* val := local val in
      writeVariable variable block val >>
      ret val
  end
with addPhiOperands (n : nat) (variable : variable) (phi : addr)
    {struct n} : M addr :=
  match n with
  | 0 => out_of_fuel
  | S n =>
      let* blk := get_block phi in
      let* b := lookup_block blk in
      for_each (preds b) (λ pred,
        let* op := readVariable n variable pred in
        appendOperand phi op) >>
      tryRemoveTrivialPhi n phi
  end.

(** ** Algorithm 4: sealing *)

Definition set_sealed (block : blockref) : M unit :=
  let* b := lookup_block block in
  store_block block (MkBlock (preds b) (defs b) true).

Definition sealBlock (n : nat) (block : blockref) : M unit :=
  let* d := registry_get block in
  for_each (d.*1) (λ variable,
    let* phi := registry_lookup block variable in
    addPhiOperands n variable phi >> ret tt) >>
  set_sealed block.

(** ** Vocabulary of the statements *)

(** Whether a run ended by returning. *)
Definition is_ok {A} (r : outcome A) : bool :=
  match r with
  | Ok _ => true
  | _ => false
  end.

(** The state a successful [writeVariable] leaves. *)
Definition written (variable : variable) (block : blockref) (value : addr)
    (blk : Block) (s : state) : state :=
  set_blocks
    (λ bs, <[block := MkBlock (preds blk)
                        (<[name variable := value]> (defs blk))
                        (sealed blk)]> bs) s.

(** ** Sample graphs *)

(** Two [Variable] objects with one name. *)
Definition x : variable := MkVariable 0 "x".
Definition x_again : variable := MkVariable 1 "x".

(** One unsealed block in which nothing was written or read yet. *)
Definition fresh_block : state :=
  MkState [Operation "a" []] [MkBlock [] ∅ false] ∅.

(** A diamond: block 0 branches to 1 and 2, which define [x] differently
    and meet in the sealed block 3. *)
Definition diamond : state :=
  MkState [Undef; Operation "a" []; Operation "b" []]
    [MkBlock [] {["x" := 0]} true; MkBlock [0] {["x" := 1]} true;
     MkBlock [0] {["x" := 2]} true; MkBlock [1; 2] ∅ true]
    ∅.

(** A sealed block without predecessors in which nothing is defined. *)
Definition unreachable : state :=
  MkState [] [MkBlock [] ∅ true] ∅.

(** The same block with what lines 102-103 are after in place: a phi
    without operands, owned by the block and written into its def-map
    under [x]. *)
Definition unreachable_placeholder : state :=
  MkState [Phi "" [] 0 []] [MkBlock [] {["x" := 0]} true] ∅.

(** A phi (handle 1) whose only operand is the operation at handle 0 and
    which is listed among its own users. *)
Definition one_operand_phi : state :=
  MkState [Operation "a" []; Phi "" [0] 0 [1]] [MkBlock [] ∅ true] ∅.

(** A phi (handle 0) without operands and users. *)
Definition no_operand_phi : state :=
  MkState [Phi "" [] 0 []] [MkBlock [] ∅ true] ∅.

(** The phi at handle 2 has the single operand 0 and is used by itself and
    by the phi at handle 3, whose operands are the phi 2 and the
    operation 1. *)
Definition used_phi : state :=
  MkState [Operation "a" []; Operation "b" [];
           Phi "" [0] 0 [2; 3]; Phi "" [2; 1] 0 []]
    [MkBlock [] ∅ true] ∅.

(** Every object of [s] outside [X] is still there, unchanged, in [s']. *)
Definition nodes_kept (X : addr → Prop) (s s' : state) : Prop :=
  ∀ a nd, nodes s !! a = Some nd → ¬ X a → nodes s' !! a = Some nd.

(** Every block of [s] is still there in [s'], with the predecessors and
    the sealed flag it had; its def-map may have changed. *)
Definition blocks_kept (s s' : state) : Prop :=
  ∀ b blk, blocks s !! b = Some blk →
    ∃ blk', blocks s' !! b = Some blk' ∧
            preds blk' = preds blk ∧ sealed blk' = sealed blk.

(** What a run from [s] to [s'] with outcome [r] may have done: objects
    outside [X] and the shape of the graph are kept, and a run that
    returned has not touched the pending-phi registry. *)
Definition post {A} (X : addr → Prop) (s : state) (r : outcome A)
    (s' : state) : Prop :=
  nodes_kept X s s' ∧ blocks_kept s s' ∧
  (is_ok r = true → incompletePhis s' = incompletePhis s).

Definition sound {A} (X : addr → Prop) (c : M A) : Prop :=
  ∀ s r s', c s = (r, s') → post X s r s'.

Definition nothing : addr → Prop := λ _, False.
Definition just (phi : addr) : addr → Prop := λ a, a = phi.

(** A straight-line chain below [prev]: each block is sealed, has the
    block before it as its only predecessor, and does not define [v]. *)
Fixpoint straight_line (s : state) (v : variable) (prev : blockref)
    (chain : list blockref) : Prop :=
  match chain with
  | [] => True
  | b :: rest =>
      (∃ blk, blocks s !! b = Some blk ∧ sealed blk = true ∧
              preds blk = [prev] ∧ defs blk !! name v = None) ∧
      straight_line s v b rest
  end.

(** [b] finds the definition [val] of [v] after [k] steps through sealed
    single-predecessor blocks that do not define [v]. *)
Inductive reaches (s : state) (v : variable) (val : addr)
    : nat → blockref → Prop :=
| reaches_def b blk :
    blocks s !! b = Some blk →
    defs blk !! name v = Some val →
    reaches s v val 0 b
| reaches_pred k b blk p :
    blocks s !! b = Some blk →
    defs blk !! name v = None →
    sealed blk = true →
    preds blk = [p] →
    reaches s v val k p →
    reaches s v val (S k) b.

(** [s'] is [s] up to def-map entries for [v], and every such entry that
    differs holds [val]. *)
Definition memoized (v : variable) (val : addr) (s s' : state) : Prop :=
  nodes s' = nodes s ∧ incompletePhis s' = incompletePhis s ∧
  ∀ b blk, blocks s !! b = Some blk →
    ∃ blk', blocks s' !! b = Some blk' ∧
            preds blk' = preds blk ∧ sealed blk' = sealed blk ∧
            (defs blk' !! name v = defs blk !! name v ∨
             defs blk' !! name v = Some val).

(** One read after the other: [[readVariable(v, b) for b in bs]]. *)
Fixpoint read_each (n : nat) (v : variable) (bs : list blockref)
    : M (list addr) :=
  match bs with
  | [] => ret []
  | b :: rest =>
      let* val := readVariable n v b in
      let* vals := read_each n v rest in
      ret (val :: vals)
  end.

(** Four sealed blocks in a row; only the entry block 0 defines [x]. *)
Definition line : state :=
  MkState [Operation "a" []]
    [MkBlock [] {["x" := 0]} true; MkBlock [0] ∅ true;
     MkBlock [1] ∅ true; MkBlock [2] ∅ true]
    ∅.

(** [line] after [x] was read in its last block: every block on the way
    has the entry's value in its def-map. *)
Definition line_read : state :=
  MkState [Operation "a" []]
    [MkBlock [] {["x" := 0]} true; MkBlock [0] {["x" := 0]} true;
     MkBlock [1] {["x" := 0]} true; MkBlock [2] {["x" := 0]} true]
    ∅.

(** [a.operands] and [a.users] as the state has them. *)
Definition operands_of (s : state) (a : addr) : option (list addr) :=
  match nodes s !! a with
  | Some (Phi _ ops _ _) | Some (Operation _ ops) => Some ops
  | _ => None
  end.

Definition users_of (s : state) (a : addr) : option (list addr) :=
  match nodes s !! a with
  | Some (Phi _ _ _ us) => Some us
  | _ => None
  end.

(** The loop of [addPhiOperands] when every read returns: predecessor by
    predecessor, [v] is read and the value is appended to [phi]. *)
Inductive operands_read (n : nat) (v : variable) (phi : addr)
    : list blockref → state → list addr → state → Prop :=
| operands_read_nil s : operands_read n v phi [] s [] s
| operands_read_cons pred ps s val s1 s2 vals s3 :
    readVariable n v pred s = (Ok val, s1) →
    appendOperand phi val s1 = (Ok tt, s2) →
    operands_read n v phi ps s2 vals s3 →
    operands_read n v phi (pred :: ps) s (val :: vals) s3.

(** Users-set consistency at [phi]: every phi among the operands of [phi]
    lists [phi] among its users. *)
Definition users_consistent (s : state) (phi : addr) : Prop :=
  ∀ ops op us,
    operands_of s phi = Some ops → op ∈ ops →
    users_of s op = Some us → phi ∈ us.

(** The state a successful [block.sealed = True] leaves. *)
Definition sealed_state (block : blockref) (blk : Block) (s : state)
    : state :=
  set_blocks (λ bs, <[block := MkBlock (preds blk) (defs blk) true]> bs) s.

(** A merge block 3 whose predecessors 1 and 2 define [x] as the phis 0
    and 1, and a phi 2 that the caller built for [x] in block 3 and that
    has no operands yet. *)
Definition half_built_merge : state :=
  MkState [Phi "" [] 1 []; Phi "" [] 2 []; Phi "" [] 3 []]
    [MkBlock [] ∅ true; MkBlock [0] {["x" := 0]} true;
     MkBlock [0] {["x" := 1]} true; MkBlock [1; 2] ∅ false]
    ∅.

(** [half_built_merge] after the phi 2 got its operands. *)
Definition merge_completed : state :=
  MkState [Phi "" [] 1 []; Phi "" [] 2 []; Phi "" [0; 1] 3 []]
    [MkBlock [] ∅ true; MkBlock [0] {["x" := 0]} true;
     MkBlock [0] {["x" := 1]} true; MkBlock [1; 2] ∅ false]
    ∅.

(** ** The elementary mutations *)

(** Every statement of the module that changes the store does one of six
    things.  [W] says for which variables [defs] may be written. *)
Inductive mutation (W : variable → Prop) : state → state → Prop :=
| mut_alloc s nd :
    mutation W s (set_nodes (λ h, h ++ [nd]) s)
| mut_append s phi nm ops b us op :
    nodes s !! phi = Some (Phi nm ops b us) →
    mutation W s
      (set_nodes (λ h, <[phi := Phi nm (ops ++ [op]) b us]> h) s)
| mut_remove s phi nm ops b us us' :
    nodes s !! phi = Some (Phi nm ops b us) →
    us' `sublist_of` us →
    mutation W s (set_nodes (λ h, <[phi := Phi nm ops b us']> h) s)
| mut_write s v b blk val :
    W v →
    blocks s !! b = Some blk →
    mutation W s (written v b val blk s)
| mut_register s b d v phi :
    incompletePhis s !! b = Some d →
    mutation W s
      (set_incompletePhis (λ r, <[b := dict_set v phi d]> r) s)
| mut_seal s b blk :
    blocks s !! b = Some blk →
    mutation W s (sealed_state b blk s).

(** A computation all of whose runs are sequences of such mutations. *)
Definition traced {A} (W : variable → Prop) (c : M A) : Prop :=
  ∀ s r s', c s = (r, s') → rtc (mutation W) s s'.

(** What stays of an object through a mutation: an [Undef] or an
    [Operation] stays as it is; a [Phi] keeps its name and its block, its
    operands are only appended to, its users only removed from. *)
Definition same_object (nd nd' : IRNode) : Prop :=
  match nd, nd' with
  | Undef, Undef => True
  | Operation nm ops, Operation nm' ops' => nm = nm' ∧ ops = ops'
  | Phi nm ops b us, Phi nm' ops' b' us' =>
      nm = nm' ∧ b = b' ∧ ops `prefix_of` ops' ∧ us' `sublist_of` us
  | _, _ => False
  end.

Definition objects_persist (s s' : state) : Prop :=
  ∀ a nd, nodes s !! a = Some nd →
    ∃ nd', nodes s' !! a = Some nd' ∧ same_object nd nd'.

(** Blocks are neither added nor dropped, keep their predecessors, and
    keep every def-map entry under a name outside [N]. *)
Definition defs_outside_kept (N : string → Prop) (s s' : state) : Prop :=
  length (blocks s') = length (blocks s) ∧
  ∀ b blk, blocks s !! b = Some blk →
    ∃ blk', blocks s' !! b = Some blk' ∧ preds blk' = preds blk ∧
            ∀ w, ¬ N w → defs blk' !! w = defs blk !! w.

(** The blocks that have a key in [incompletePhis]. *)
Definition registered (s : state) : gset nat := dom (incompletePhis s).

(** Some call of a reader for [v], with fuel [n], takes [s] to [s']. *)
Definition reads_of (n : nat) (v : variable) (s s' : state) : Prop :=
  (∃ b r, readVariable n v b s = (r, s')) ∨
  (∃ b r, readVariableRecursive n v b s = (r, s')) ∨
  (∃ phi r, addPhiOperands n v phi s = (r, s')).

(** Some call of the module, with fuel [n], takes [s] to [s']. *)
Definition run_of (n : nat) (s s' : state) : Prop :=
  (∃ v, reads_of n v s s') ∨
  (∃ phi r, tryRemoveTrivialPhi n phi s = (r, s')) ∨
  (∃ b r, sealBlock n b s = (r, s')) ∨
  (∃ v b val r, writeVariable v b val s = (r, s')).

(** Two distinct operands other than the phi itself. *)
Definition merges_two (phi : addr) (ops : list addr) : Prop :=
  ∃ a b, a ∈ ops ∧ b ∈ ops ∧ a ≠ b ∧ a ≠ phi ∧ b ≠ phi.

(** Every operand is the phi itself (in particular: no operand). *)
Definition only_self (phi : addr) (ops : list addr) : bool :=
  forallb (λ op, bool_decide (op = phi)) ops.

(** The phi 1 is not among its own users; its one user, the phi 2, is
    another object with the same name, operands, block and users. *)
Definition twin_user : state :=
  MkState [Operation "a" []; Phi "" [0] 0 [2]; Phi "" [0] 0 [2]]
    [MkBlock [] ∅ true] ∅.

(** A phi at handle 2 that merges the operations 0 and 1. *)
Definition merging_phi : state :=
  MkState [Operation "a" []; Operation "b" []; Phi "" [0; 2; 1; 0] 0 [2]]
    [MkBlock [] ∅ true] ∅.

(** Every def-map entry of [s] is still there, with the same value, in
    [s']. *)
Definition defs_kept (s s' : state) : Prop :=
  ∀ b blk w val, blocks s !! b = Some blk → defs blk !! w = Some val →
    ∃ blk', blocks s' !! b = Some blk' ∧ defs blk' !! w = Some val.

(** A computation none of whose runs drops or changes a def-map entry. *)
Definition keeps_defs {A} (c : M A) : Prop :=
  ∀ s r s', c s = (r, s') → defs_kept s s'.

(** Every def-map entry is the handle of an object. *)
Definition defs_allocated (s : state) : Prop :=
  ∀ b blk w val, blocks s !! b = Some blk → defs blk !! w = Some val →
    val < length (nodes s).

(** A set [B] of blocks is a trap for [v]: each block in it is sealed,
    does not define [v], and has one predecessor, which is in [B] again. *)
Definition trap (s : state) (v : variable) (B : blockref → Prop) : Prop :=
  ∀ b, B b →
    ∃ blk p, blocks s !! b = Some blk ∧ defs blk !! name v = None ∧
             sealed blk = true ∧ preds blk = [p] ∧ B p.

(** Two sealed blocks that are each other's only predecessor. *)
Definition two_cycle : state :=
  MkState [] [MkBlock [1] ∅ true; MkBlock [0] ∅ true] ∅.

(** The predecessors [ps] define [v] locally, as [vals], in this order. *)
Definition preds_define (s : state) (v : variable) (ps : list blockref)
    (vals : list addr) : Prop :=
  Forall2 (λ p val, ∃ blk, blocks s !! p = Some blk ∧
                           defs blk !! name v = Some val) ps vals.

(** Every run of [c] that does not run out of fuel is a run of [c']. *)
Definition refines {A} (c c' : M A) : Prop :=
  ∀ s r s', c s = (r, s') → r ≠ OutOfFuel → c' s = (r, s').

(** * Properties *)

(** ** Dicts *)

Lemma dict_get_set_eq {K} `{EqDecision K} (k : K) v d :
  dict_get k (dict_set k v d) = Some v.
Proof.
  induction d as [|[k' v'] d IH]; simpl.
  - by rewrite decide_True.
  - destruct (decide (k' = k)) as [->|Hne]; simpl.
    + by rewrite decide_True.
    + by rewrite decide_False.
Qed.

Lemma dict_get_set_ne {K} `{EqDecision K} (k k' : K) v d :
  k ≠ k' → dict_get k' (dict_set k v d) = dict_get k' d.
Proof.
  intros Hne. induction d as [|[k0 v0] d IH]; simpl.
  - by rewrite decide_False.
  - destruct (decide (k0 = k)) as [->|Hk0]; simpl.
    + by rewrite !decide_False.
    + destruct (decide (k0 = k')); [done|apply IH].
Qed.

Lemma dict_set_set {K} `{EqDecision K} (k : K) v1 v2 d :
  dict_set k v2 (dict_set k v1 d) = dict_set k v2 d.
Proof.
  induction d as [|[k' v'] d IH]; simpl.
  - by rewrite decide_True.
  - destruct (decide (k' = k)) as [->|Hne]; simpl.
    + by rewrite decide_True.
    + rewrite decide_False by done. by rewrite IH.
Qed.

Lemma defs_lookup_insert_eq (d : pydict) k v : <[k := v]> d !! k = Some v.
Proof. apply dict_get_set_eq. Qed.

Lemma defs_lookup_insert_ne (d : pydict) k k' v :
  k ≠ k' → <[k := v]> d !! k' = d !! k'.
Proof. apply dict_get_set_ne. Qed.

Lemma defs_insert_insert (d : pydict) k v1 v2 :
  <[k := v2]> (<[k := v1]> d) = <[k := v2]> d.
Proof.
  unfold insert, pydict_insert. simpl. f_equal. apply dict_set_set.
Qed.

(** ** Running a computation: inversion of [bind] *)

Lemma bind_ok {A B} (c : M A) (k : A → M B) s a s1 :
  c s = (Ok a, s1) → bind c k s = k a s1.
Proof. intros H. unfold bind. by rewrite H. Qed.

Lemma bind_inv {A B} (c : M A) (k : A → M B) s r s' :
  bind c k s = (r, s') →
  (∃ a s1, c s = (Ok a, s1) ∧ k a s1 = (r, s')) ∨
  (∃ r1, c s = (r1, s') ∧ is_ok r1 = false ∧ is_ok r = false).
Proof.
  unfold bind. destruct (c s) as [[a|e|] s1] eqn:E; intros H.
  - left. eauto.
  - right. simplify_eq. eauto.
  - right. simplify_eq. eauto.
Qed.

Lemma bind_ok_inv {A B} (c : M A) (k : A → M B) s b s' :
  bind c k s = (Ok b, s') →
  ∃ a s1, c s = (Ok a, s1) ∧ k a s1 = (Ok b, s').
Proof.
  intros H. apply bind_inv in H as [H|(r1 & _ & _ & H)]; [done|].
  discriminate H.
Qed.

Lemma bind_assoc {A B C} (c : M A) (k : A → M B) (k' : B → M C) s :
  bind (bind c k) k' s = bind c (λ a, bind (k a) k') s.
Proof. unfold bind. by destruct (c s) as [[a|e|] s1]. Qed.

Lemma bind_ext {A B} (c : M A) (k k' : A → M B) s :
  (∀ a s1, k a s1 = k' a s1) → bind c k s = bind c k' s.
Proof. intros H. unfold bind. destruct (c s) as [[a|e|] s1]; auto. Qed.

Lemma lookup_block_ok b s blk :
  blocks s !! b = Some blk → lookup_block b s = (Ok blk, s).
Proof. intros H. unfold lookup_block. by rewrite H. Qed.

Lemma lookup_node_ok a s nd :
  nodes s !! a = Some nd → lookup_node a s = (Ok nd, s).
Proof. intros H. unfold lookup_node. by rewrite H. Qed.

Lemma writeVariable_ok variable block value s blk :
  blocks s !! block = Some blk →
  writeVariable variable block value s
  = (Ok tt, written variable block value blk s).
Proof.
  intros H. unfold writeVariable.
  by rewrite (bind_ok _ _ _ _ _ (lookup_block_ok _ _ _ H)).
Qed.

Lemma writeVariable_inv variable block value s r s' :
  writeVariable variable block value s = (r, s') →
  (∃ blk, blocks s !! block = Some blk ∧ r = Ok tt ∧
          s' = written variable block value blk s) ∨
  (blocks s !! block = None ∧ r = Raise Dangling ∧ s' = s).
Proof.
  unfold writeVariable, bind, lookup_block, store_block, modify.
  destruct (blocks s !! block) as [blk|] eqn:E; intros H; simplify_eq.
  - left. eauto.
  - right. eauto.
Qed.

Lemma written_lookup variable block value blk s :
  blocks s !! block = Some blk →
  blocks (written variable block value blk s) !! block
  = Some (MkBlock (preds blk) (<[name variable := value]> (defs blk))
            (sealed blk)).
Proof.
  intros H. unfold written; simpl.
  apply list_lookup_insert_eq. by eapply lookup_lt_Some.
Qed.

(** A read that hits the def-map returns the entry and changes nothing. *)
Lemma readVariable_local n variable block s blk x :
  blocks s !! block = Some blk →
  defs blk !! name variable = Some x →
  readVariable (S n) variable block s = (Ok x, s).
Proof.
  intros Hb Hd. simpl.
  rewrite (bind_ok _ _ _ _ _ (lookup_block_ok _ _ _ Hb)). by rewrite Hd.
Qed.

(** Whatever [readVariableRecursive] returns, it has just written into
    [block.defs[variable.name]]. *)
Lemma readVariableRecursive_memo n variable block s val s' :
  readVariableRecursive n variable block s = (Ok val, s') →
  ∃ blk, blocks s' !! block = Some blk ∧
         defs blk !! name variable = Some val.
Proof.
  destruct n as [|n]; [discriminate|]. simpl. intros H.
  apply bind_ok_inv in H as (b & s1 & _ & H).
  apply bind_ok_inv in H as (oval & s2 & _ & H).
  apply bind_ok_inv in H as (val' & s3 & Hl & H).
  apply bind_ok_inv in H as ([] & s4 & Hw & H).
  unfold ret in H. simplify_eq.
  apply writeVariable_inv in Hw as [(blk & Hb & _ & ->)|(_ & ? & _)]; [|done].
  eexists. split; [by apply written_lookup|]. simpl.
  apply defs_lookup_insert_eq.
Qed.

(** ** The def-map is keyed by name *)

(** C10: the def-map is keyed by [variable.name], so after
    [writeVariable(u, b, x)] a [readVariable(w, b)] with [w.name] equal to
    [u.name] returns [x], whether or not [u] and [w] are one object. *)
Theorem writeVariable_readVariable_alias u w b val s blk n :
  name u = name w →
  blocks s !! b = Some blk →
  ∃ s', writeVariable u b val s = (Ok tt, s') ∧
        readVariable (S n) w b s' = (Ok val, s').
Proof.
  intros Hname Hb. eexists. split; [by apply writeVariable_ok|].
  eapply readVariable_local; [by apply written_lookup|].
  simpl. rewrite Hname. apply defs_lookup_insert_eq.
Qed.

Lemma writeVariable_readVariable_alias_witness :
  name x = name x_again ∧
  blocks fresh_block !! 0 = Some (MkBlock [] ∅ false) ∧
  ∃ s', writeVariable x 0 0 fresh_block = (Ok tt, s') ∧
        readVariable 1 x_again 0 s' = (Ok 0, s').
Proof.
  split; [reflexivity|]. split; [reflexivity|].
  apply (writeVariable_readVariable_alias x x_again 0 0 fresh_block
           (MkBlock [] ∅ false) 0); reflexivity.
Defined.

(** ** The constructor call and the registry subscript *)

Lemma new_Phi_raises b s : new_Phi b s = (Raise TypeError, s).
Proof. reflexivity. Qed.

Lemma registry_get_raises b s : registry_get b s = (Raise TypeError, s).
Proof. reflexivity. Qed.

(** The two branches of [readVariableRecursive] that build a phi end at
    the constructor call; nothing has been changed by then. *)
Lemma readVariableRecursive_new_phi n v b s blk :
  blocks s !! b = Some blk →
  sealed blk = false ∨ length (preds blk) ≠ 1 →
  readVariableRecursive (S n) v b s = (Raise TypeError, s).
Proof.
  intros Hb Hcase. simpl.
  rewrite (bind_ok _ _ _ _ _ (lookup_block_ok _ _ _ Hb)).
  destruct (sealed blk); simpl.
  - destruct Hcase as [?|Hlen]; [done|].
    apply Nat.eqb_neq in Hlen. by rewrite Hlen.
  - done.
Qed.

(** ** Trivial-phi removal *)

Lemma users_remove_inv n phi a s o s1 :
  users_remove n phi a s = (Ok o, s1) → o = PyNone.
Proof.
  unfold users_remove, bind, lookup_node, store_node, modify, raise, ret.
  repeat case_match; intros; by simplify_eq.
Qed.

(** The only value [tryRemoveTrivialPhi] ever returns is the phi it was
    given, from the [return phi] inside the scan and with nothing changed:
    past the scan, [users] is bound to the [None] that [list.remove]
    evaluates to, and the [for use in users] loop cannot start. *)
Lemma tryRemoveTrivialPhi_returns n phi s a s' :
  tryRemoveTrivialPhi n phi s = (Ok a, s') →
  a = phi ∧ s' = s ∧
  ∃ ops, get_operands phi s = (Ok ops, s) ∧
         scan_operands phi None ops = NonTrivial.
Proof.
  destruct n as [|n]; [discriminate|]. simpl. intros H.
  apply bind_ok_inv in H as (ops & s1 & Hops & H).
  assert (s1 = s) as ->.
  { unfold get_operands, bind, lookup_node, raise, ret in Hops.
    repeat case_match; by simplify_eq. }
  destruct (scan_operands phi None ops) as [|same] eqn:Hscan.
  - unfold ret in H. simplify_eq. eauto.
  - apply bind_ok_inv in H as (same' & s2 & _ & H).
    apply bind_ok_inv in H as (users & s3 & Hrm & H).
    apply users_remove_inv in Hrm as ->.
    apply bind_ok_inv in H as ([] & s4 & _ & H).
    apply bind_ok_inv in H as (uses & s5 & Hit & _).
    discriminate Hit.
Qed.

(** A phi with two distinct operands other than itself is returned as it
    is. *)
Lemma tryRemoveTrivialPhi_nontrivial n phi s ops :
  get_operands phi s = (Ok ops, s) →
  scan_operands phi None ops = NonTrivial →
  tryRemoveTrivialPhi (S n) phi s = (Ok phi, s).
Proof.
  intros Hops Hscan. simpl. rewrite (bind_ok _ _ _ _ _ Hops).
  by rewrite Hscan.
Qed.

(** C2 (defect at line 130): in both substitution cases
    [tryRemoveTrivialPhi] raises where the claim has it return the
    substitute.  A phi whose single operand is another value and that is
    among its own users gets through [phi.users.remove(phi)], which binds
    [users] to [None], and fails with a [TypeError] at [for use in users];
    a phi with no operand and no users fails with the [ValueError] of
    [remove] itself, after the [Undef] was built. *)
Theorem tryRemoveTrivialPhi_substitution_raises :
  tryRemoveTrivialPhi 3 1 one_operand_phi
  = (Raise TypeError,
     MkState [Operation "a" []; Phi "" [0] 0 []] [MkBlock [] ∅ true] ∅) ∧
  tryRemoveTrivialPhi 3 0 no_operand_phi
  = (Raise ValueError,
     MkState [Phi "" [] 0 []; Undef] [MkBlock [] ∅ true] ∅).
Proof. split; reflexivity. Qed.

(** C3 (defect at lines 130 and 58-62): replacing the phi 2 of [used_phi]
    by its single operand stops with a [TypeError] before any user is
    visited; [replaceBy] has rewritten nothing, so the phi 3 still holds
    the phi 2 as its first operand, and no removal was attempted on it. *)
Theorem tryRemoveTrivialPhi_leaves_users_dangling :
  tryRemoveTrivialPhi 5 2 used_phi
  = (Raise TypeError,
     MkState [Operation "a" []; Operation "b" [];
              Phi "" [0] 0 [3]; Phi "" [2; 1] 0 []]
       [MkBlock [] ∅ true] ∅).
Proof. reflexivity. Qed.

(** ** Reads that need a phi *)

(** C1 (defect at line 102): in the sealed block 3 of [diamond], which has
    two predecessors, [readVariableRecursive] raises [TypeError] at
    [Phi(block)], the class taking four arguments: no placeholder is
    built, nothing is written into [defs], [addPhiOperands] is not
    called, and the state is as before the call. *)
Theorem readVariableRecursive_placeholder_raises :
  readVariableRecursive 9 x 3 diamond = (Raise TypeError, diamond).
Proof. reflexivity. Qed.

(** C6 (defect at line 96): reading [x] in the unsealed block of
    [fresh_block] raises [TypeError] at [Phi(block)]: no phi is built or
    registered, nothing is written into [defs] and nothing is returned.
    (Past the constructor the branch would still not bind [val], which
    line 105 reads.) *)
Theorem readVariable_unsealed_raises :
  readVariable 5 x 0 fresh_block = (Raise TypeError, fresh_block).
Proof. reflexivity. Qed.

(** C8 (defect at lines 96 and 102): a read that has to create a phi does
    not return, so two such reads in a row return no values to compare.
    In the merge block of [diamond] and in the unsealed block of
    [fresh_block] the first [readVariable] raises [TypeError] and leaves
    the state as it was, and so does the second; run one after the other,
    the second is not reached. *)
Theorem readVariable_twice_raises :
  (readVariable 10 x 3 diamond = (Raise TypeError, diamond) ∧
   (let* first := readVariable 10 x 3 in
    let* second := readVariable 10 x 3 in
    ret (first, second)) diamond = (Raise TypeError, diamond)) ∧
  (readVariable 10 x 0 fresh_block = (Raise TypeError, fresh_block) ∧
   (let* first := readVariable 10 x 0 in
    let* second := readVariable 10 x 0 in
    ret (first, second)) fresh_block = (Raise TypeError, fresh_block)).
Proof. repeat split; reflexivity. Qed.

(** C9 (defects at lines 102 and 130): reading [x] in the sealed,
    predecessor-free block of [unreachable] raises [TypeError] at
    [Phi(block)] and returns no [Undef].  With the placeholder in place,
    as in [unreachable_placeholder], completing it still does not get to
    the [Undef]: [addPhiOperands] finds no operand, builds the [Undef]
    and raises [ValueError] at [phi.users.remove(phi)]. *)
Theorem readVariable_unreachable_raises :
  readVariable 5 x 0 unreachable = (Raise TypeError, unreachable) ∧
  addPhiOperands 4 x 0 unreachable_placeholder
  = (Raise ValueError,
     MkState [Phi "" [] 0 []; Undef] [MkBlock [] {["x" := 0]} true] ∅).
Proof. split; reflexivity. Qed.

(** ** Sealing *)

(** C5 (defect at line 143): [sealBlock] raises [TypeError] on every
    block, in every state, at [incompletePhis[block]], a [Block] not
    being hashable: no pending phi is completed, the sealed flag is not
    set, the registry is not touched, and a block that was never read
    from is no exception. *)
Theorem sealBlock_raises n b s : sealBlock n b s = (Raise TypeError, s).
Proof. reflexivity. Qed.

(** ** Users are not recorded *)

(** C7 (defect at lines 55-56): completing the phi 2 of
    [half_built_merge] appends the values read in the predecessors, the
    phis 0 and 1, in the order of [preds], and returns the phi; neither
    operand has the phi among its users afterwards:
    [appendOperand] appends to [operands] and does nothing else. *)
Theorem addPhiOperands_users_not_recorded :
  addPhiOperands 5 x 2 half_built_merge = (Ok 2, merge_completed) ∧
  operands_of merge_completed 2 = Some [0; 1] ∧
  ¬ users_consistent merge_completed 2.
Proof.
  split; [reflexivity|]. split; [reflexivity|].
  intros H. specialize (H [0; 1] 0 [] eq_refl).
  assert (2 ∈ @nil nat) as Hin by (apply H; [by left|reflexivity]).
  by apply elem_of_nil in Hin.
Qed.

(** ** What the readers leave alone *)

Lemma post_refl {A} X s (r : outcome A) : post X s r s.
Proof.
  split; [|split]; [by intros ??? | | done].
  intros b blk Hb. eauto.
Qed.

Lemma post_trans {A B} X s (r1 : outcome A) s1 (r : outcome B) s2 :
  post X s r1 s1 → (is_ok r = true → is_ok r1 = true) →
  post X s1 r s2 → post X s r s2.
Proof.
  intros (Hn1 & Hb1 & Hr1) Hok (Hn2 & Hb2 & Hr2).
  split; [|split].
  - intros a nd Ha HX. eauto.
  - intros b blk Hb. destruct (Hb1 _ _ Hb) as (blk1 & Hb' & Hp1 & Hs1).
    destruct (Hb2 _ _ Hb') as (blk2 & Hb'' & Hp2 & Hs2).
    exists blk2. split; [done|]. split; congruence.
  - intros H. rewrite Hr2, Hr1; auto.
Qed.

Lemma post_weaken {A B} X s (r1 : outcome A) (r : outcome B) s' :
  post X s r1 s' → is_ok r = false → post X s r s'.
Proof.
  intros (Hn & Hb & _) Hr. split; [done|]. split; [done|].
  rewrite Hr. discriminate.
Qed.

Lemma post_mono {A} (X Y : addr → Prop) s (r : outcome A) s' :
  (∀ a, X a → Y a) → post X s r s' → post Y s r s'.
Proof.
  intros HXY (Hn & Hb & Hr). split; [|done].
  intros a nd Ha HY. apply Hn; auto.
Qed.

Lemma sound_mono {A} (X Y : addr → Prop) (c : M A) :
  (∀ a, X a → Y a) → sound X c → sound Y c.
Proof. intros HXY Hc s r s' H. eapply post_mono; eauto. Qed.

Lemma sound_ret {A} X (a : A) : sound X (ret a).
Proof. intros s r s' [= <- <-]. apply post_refl. Qed.

Lemma sound_raise {A} X e : sound X (@raise A e).
Proof. intros s r s' [= <- <-]. apply post_refl. Qed.

Lemma sound_out_of_fuel {A} X : sound X (@out_of_fuel A).
Proof. intros s r s' [= <- <-]. apply post_refl. Qed.

(** The continuation only has to be sound on the states and values that
    the first computation can hand over. *)
Lemma sound_bind {A B} X (c : M A) (k : A → M B) :
  sound X c →
  (∀ s a s1, c s = (Ok a, s1) → ∀ r s', k a s1 = (r, s') → post X s1 r s') →
  sound X (bind c k).
Proof.
  intros Hc Hk s r s' H.
  apply bind_inv in H as [(a & s1 & Hca & Hka)|(r1 & Hcr & Hf & Hr)].
  - eapply post_trans; [by apply Hc| |by eapply Hk]. done.
  - eapply post_weaken; [by apply Hc|done].
Qed.

Lemma sound_bind_simple {A B} X (c : M A) (k : A → M B) :
  sound X c → (∀ a, sound X (k a)) → sound X (bind c k).
Proof. intros Hc Hk. apply sound_bind; [done|]. intros ?????. apply Hk. Qed.

Lemma sound_for_each {A} X (l : list A) (body : A → M unit) :
  (∀ a, sound X (body a)) → sound X (for_each l body).
Proof.
  intros Hbody. induction l as [|a l IH]; simpl.
  - apply sound_ret.
  - apply sound_bind_simple; auto.
Qed.

Lemma sound_lookup_block X b : sound X (lookup_block b).
Proof.
  intros s r s'. unfold lookup_block. case_match; intros [= <- <-];
    apply post_refl.
Qed.

Lemma sound_lookup_node X a : sound X (lookup_node a).
Proof.
  intros s r s'. unfold lookup_node. case_match; intros [= <- <-];
    apply post_refl.
Qed.

Lemma sound_registry_get X b : sound X (registry_get b).
Proof. apply sound_raise. Qed.

Lemma sound_alloc X nd : sound X (alloc nd).
Proof.
  intros s r s' [= <- <-]. split; [|split]; simpl; [| |done].
  - intros a nd' Ha _. cbn. by apply lookup_app_l_Some.
  - intros b blk Hb. eauto.
Qed.

Lemma sound_store_node phi nd : sound (just phi) (store_node phi nd).
Proof.
  intros s r s' [= <- <-]. split; [|split]; simpl; [| |done].
  - intros a nd' Ha Hne. cbn. rewrite list_lookup_insert_ne; [done|].
    intros ->. by apply Hne.
  - intros b blk Hb. eauto.
Qed.

Lemma sound_writeVariable X v b val : sound X (writeVariable v b val).
Proof.
  intros s r s' H.
  apply writeVariable_inv in H as [(blk & Hb & -> & ->)|(_ & -> & ->)];
    [|apply post_refl].
  split; [|split]; simpl; [by intros ??? | |done].
  intros b' blk' Hb'. destruct (decide (b' = b)) as [->|Hne].
  - eexists. split; [by apply written_lookup|].
    by simplify_eq.
  - exists blk'. split; [|done]. unfold written; cbn.
    by rewrite list_lookup_insert_ne.
Qed.

Lemma sound_get_operands X a : sound X (get_operands a).
Proof.
  apply sound_bind_simple; [apply sound_lookup_node|].
  intros []; (apply sound_ret || apply sound_raise).
Qed.

Lemma sound_get_block X a : sound X (get_block a).
Proof.
  apply sound_bind_simple; [apply sound_lookup_node|].
  intros []; (apply sound_ret || apply sound_raise).
Qed.

Lemma sound_appendOperand phi op : sound (just phi) (appendOperand phi op).
Proof.
  apply sound_bind_simple; [apply sound_lookup_node|].
  intros []; (apply sound_store_node || apply sound_raise).
Qed.

Lemma sound_users_remove n phi a : sound (just phi) (users_remove n phi a).
Proof.
  apply sound_bind_simple; [apply sound_lookup_node|].
  intros [| |nm ops b us]; try apply sound_raise.
  intros s r s'.
  destruct (list_remove (λ item, py_eq n s item a) us) as [[us'|]|e|];
    try (intros [= <- <-]; apply post_refl).
  revert s r s'. apply sound_bind_simple; [apply sound_store_node|].
  intros _. apply sound_ret.
Qed.

Lemma sound_tryRemoveTrivialPhi n phi :
  sound (just phi) (tryRemoveTrivialPhi n phi).
Proof.
  destruct n as [|n]; simpl; [apply sound_out_of_fuel|].
  apply sound_bind_simple; [apply sound_get_operands|]. intros ops.
  destruct (scan_operands phi None ops) as [|same]; [apply sound_ret|].
  apply sound_bind_simple.
  { destruct same; [apply sound_ret|apply sound_alloc]. }
  intros same'. apply sound_bind; [apply sound_users_remove|].
  intros s users s1 Hrm r s'. apply users_remove_inv in Hrm as ->.
  intros [= <- <-]. apply post_refl.
Qed.

(** Reading never changes an object that existed before the read, never
    changes the predecessors or the sealed flag of a block, and leaves
    the registry alone; completing a phi changes no other object that
    existed. *)
Lemma sound_readers n :
  (∀ v b, sound nothing (readVariable n v b)) ∧
  (∀ v b, sound nothing (readVariableRecursive n v b)) ∧
  (∀ v phi, sound (just phi) (addPhiOperands n v phi)).
Proof.
  induction n as [|n (IHrv & IHrvr & IHapo)].
  { split; [|split]; intros ??; apply sound_out_of_fuel. }
  split; [|split].
  - intros v b. simpl. apply sound_bind_simple; [apply sound_lookup_block|].
    intros blk. destruct (defs blk !! name v); [apply sound_ret|apply IHrvr].
  - intros v b. simpl. apply sound_bind_simple; [apply sound_lookup_block|].
    intros blk. apply sound_bind_simple.
    + destruct (negb (sealed blk)).
      { apply sound_bind; [apply sound_raise|]. intros ??? Hphi.
        discriminate Hphi. }
      destruct (length (preds blk) =? 1).
      * apply sound_bind_simple.
        { unfold first_pred. destruct (preds blk);
            [apply sound_raise|apply sound_ret]. }
        intros p. apply sound_bind_simple; [apply IHrv|].
        intros val. apply sound_ret.
      * apply sound_bind; [apply sound_raise|]. intros ??? Hphi.
        discriminate Hphi.
    + intros [val|]; [|apply sound_raise].
      apply sound_bind_simple; [apply sound_ret|]. intros val'.
      apply sound_bind_simple; [apply sound_writeVariable|].
      intros _. apply sound_ret.
  - intros v phi. simpl.
    apply sound_bind_simple; [apply sound_get_block|]. intros blk.
    apply sound_bind_simple; [apply sound_lookup_block|]. intros b.
    apply sound_bind_simple; [|intros _; apply sound_tryRemoveTrivialPhi].
    apply sound_for_each. intros pred.
    apply sound_bind_simple.
    + eapply sound_mono; [|apply IHrv]. by intros ? [].
    + intros op. apply sound_appendOperand.
Qed.

Lemma readVariable_blocks_kept n v b s r s' :
  readVariable n v b s = (r, s') → blocks_kept s s'.
Proof.
  intros H. destruct (sound_readers n) as (Hrv & _).
  by destruct (Hrv v b s r s' H) as (_ & ? & _).
Qed.

Lemma addPhiOperands_blocks_kept n v phi s r s' :
  addPhiOperands n v phi s = (r, s') → blocks_kept s s'.
Proof.
  intros H. destruct (sound_readers n) as (_ & _ & Hapo).
  by destruct (Hapo v phi s r s' H) as (_ & ? & _).
Qed.

(** ** The single-predecessor branch *)

Lemma readVariableRecursive_single n v b s blk p :
  blocks s !! b = Some blk →
  sealed blk = true →
  preds blk = [p] →
  readVariableRecursive (S n) v b s
  = (let* val := readVariable n v p in
     writeVariable v b val >> ret val) s.
Proof.
  intros Hb Hsealed Hp. simpl.
  rewrite (bind_ok _ _ _ _ _ (lookup_block_ok _ _ _ Hb)), Hsealed. simpl.
  unfold first_pred. rewrite Hp. simpl.
  rewrite !bind_assoc. erewrite bind_ok by reflexivity.
  rewrite !bind_assoc. by apply bind_ext.
Qed.

Lemma memoized_refl v val s : memoized v val s s.
Proof. split; [done|]. split; [done|]. intros b blk Hb. eauto 10. Qed.

Lemma memoized_trans v val s1 s2 s3 :
  memoized v val s1 s2 → memoized v val s2 s3 → memoized v val s1 s3.
Proof.
  intros (Hn1 & Hr1 & H1) (Hn2 & Hr2 & H2).
  split; [congruence|]. split; [congruence|].
  intros b blk Hb.
  destruct (H1 _ _ Hb) as (blk1 & Hb1 & Hp1 & Hs1 & Hd1).
  destruct (H2 _ _ Hb1) as (blk2 & Hb2 & Hp2 & Hs2 & Hd2).
  exists blk2. split; [done|]. split; [congruence|]. split; [congruence|].
  destruct Hd2 as [Hd2|Hd2]; [|by right].
  rewrite Hd2. done.
Qed.

Lemma memoized_written v val b blk s :
  blocks s !! b = Some blk → memoized v val s (written v b val blk s).
Proof.
  intros Hb. split; [done|]. split; [done|].
  intros b' blk' Hb'. destruct (decide (b' = b)) as [->|Hne].
  - eexists. split; [by apply written_lookup|]. simplify_eq. simpl.
    split; [done|]. split; [done|]. right. apply defs_lookup_insert_eq.
  - exists blk'. split; [|by auto]. unfold written; cbn.
    by rewrite list_lookup_insert_ne.
Qed.

(** A block that reaches the definition reads it, within a fuel of two
    per step, and the read only memoizes. *)
Lemma reaches_read s v val k b :
  reaches s v val k b →
  ∀ n, 2 * k < n →
  ∃ s', readVariable n v b s = (Ok val, s') ∧ memoized v val s s'.
Proof.
  induction 1 as [b blk Hb Hd|k b blk p Hb Hd Hsealed Hp Hreach IH];
    intros n Hn.
  - destruct n as [|n]; [lia|]. exists s.
    split; [by eapply readVariable_local|apply memoized_refl].
  - destruct n as [|[|n]]; [lia..|].
    destruct (IH n) as (s1 & Hread & Hmemo); [lia|].
    destruct (readVariable_blocks_kept _ _ _ _ _ _ Hread _ _ Hb)
      as (blk1 & Hb1 & _).
    exists (written v b val blk1 s1). split.
    + change (readVariable (S (S n)) v b s)
        with ((let* b0 := lookup_block b in
               match defs b0 !! name v with
               | Some x0 => ret x0
               | None => readVariableRecursive (S n) v b
               end) s).
      rewrite (bind_ok _ _ _ _ _ (lookup_block_ok _ _ _ Hb)), Hd.
      rewrite (readVariableRecursive_single n v b s blk p) by done.
      rewrite (bind_ok _ _ _ _ _ Hread).
      by rewrite (bind_ok _ _ _ _ _ (writeVariable_ok _ _ _ _ _ Hb1)).
    + eapply memoized_trans; [done|]. by apply memoized_written.
Qed.

(** Memoizing keeps every block within reach of the definition. *)
Lemma reaches_memoized s s' v val k b :
  reaches s v val k b → memoized v val s s' →
  ∃ k', k' ≤ k ∧ reaches s' v val k' b.
Proof.
  intros Hreach (_ & _ & Hm).
  induction Hreach as [b blk Hb Hd|k b blk p Hb Hd Hsealed Hp Hreach IH].
  - destruct (Hm _ _ Hb) as (blk' & Hb' & _ & _ & Hd').
    exists 0. split; [done|]. eapply reaches_def; [done|].
    destruct Hd' as [Hd'|Hd']; congruence.
  - destruct (Hm _ _ Hb) as (blk' & Hb' & Hp' & Hs' & Hd').
    destruct IH as (k' & Hk' & IH).
    destruct Hd' as [Hd'|Hd'].
    + exists (S k'). split; [lia|].
      apply (reaches_pred s' v val k' b blk' p);
        [done|by rewrite Hd'|by rewrite Hs'|by rewrite Hp'|done].
    + exists 0. split; [lia|]. by eapply reaches_def.
Qed.

Lemma straight_line_reaches s v val chain : ∀ prev k,
  reaches s v val k prev →
  straight_line s v prev chain →
  ∀ b, b ∈ chain → ∃ k', k' ≤ k + length chain ∧ reaches s v val k' b.
Proof.
  induction chain as [|c chain IH]; intros prev k Hprev Hline b Hin.
  - by apply elem_of_nil in Hin.
  - destruct Hline as ((blk & Hb & Hsealed & Hp & Hd) & Hline).
    assert (reaches s v val (S k) c) as Hc by (by eapply reaches_pred).
    apply elem_of_cons in Hin as [->|Hin].
    + exists (S k). split; [simpl; lia|done].
    + destruct (IH c (S k) Hc Hline b Hin) as (k' & Hk' & Hr).
      exists k'. split; [simpl; lia|done].
Qed.

Lemma read_each_reaches v val K n : ∀ bs s,
  (∀ b, b ∈ bs → ∃ k, k ≤ K ∧ reaches s v val k b) →
  2 * K < n →
  ∃ s', read_each n v bs s = (Ok (replicate (length bs) val), s') ∧
        memoized v val s s'.
Proof.
  induction bs as [|b bs IH]; intros s Hall Hn.
  - exists s. split; [done|apply memoized_refl].
  - destruct (Hall b) as (k & Hk & Hreach); [by left|].
    destruct (reaches_read _ _ _ _ _ Hreach n) as (s1 & Hread & Hm1); [lia|].
    destruct (IH s1) as (s2 & Hrest & Hm2); [|done|].
    { intros b' Hb'. destruct (Hall b') as (k' & Hk' & Hr'); [by right|].
      destruct (reaches_memoized _ _ _ _ _ _ Hr' Hm1) as (k'' & ? & ?).
      exists k''. split; [lia|done]. }
    exists s2. split; [|by eapply memoized_trans].
    simpl. rewrite (bind_ok _ _ _ _ _ Hread).
    by rewrite (bind_ok _ _ _ _ _ Hrest).
Qed.

(** C4: in a sealed block [b] whose only predecessor is [p],
    [readVariableRecursive(v, b)] ends as the read of [v] in [p] ends, with
    the same value or exception, and allocates no object of its own; and
    down a straight-line chain of sealed single-predecessor blocks below an
    entry block that alone defines [v], reading [v] at the blocks of the
    chain, in any order and one read after the other, returns the entry's
    value every time and allocates nothing. *)
Theorem single_predecessor_reads_through s v :
  (∀ n b blk p r s1,
     blocks s !! b = Some blk → sealed blk = true → preds blk = [p] →
     readVariable n v p s = (r, s1) →
     ∃ s2, readVariableRecursive (S n) v b s = (r, s2) ∧
           nodes s2 = nodes s1 ∧ incompletePhis s2 = incompletePhis s1) ∧
  (∀ entry eblk val chain bs n,
     blocks s !! entry = Some eblk → defs eblk !! name v = Some val →
     straight_line s v entry chain →
     bs ⊆ chain →
     2 * length chain < n →
     ∃ s', read_each n v bs s = (Ok (replicate (length bs) val), s') ∧
           nodes s' = nodes s).
Proof.
  split.
  - intros n b blk p r s1 Hb Hsealed Hp Hread.
    rewrite (readVariableRecursive_single n v b s blk p) by done.
    destruct r as [val|e|].
    + destruct (readVariable_blocks_kept _ _ _ _ _ _ Hread _ _ Hb)
        as (blk1 & Hb1 & _).
      exists (written v b val blk1 s1).
      rewrite (bind_ok _ _ _ _ _ Hread).
      by rewrite (bind_ok _ _ _ _ _ (writeVariable_ok _ _ _ _ _ Hb1)).
    + exists s1. unfold bind. by rewrite Hread.
    + exists s1. unfold bind. by rewrite Hread.
  - intros entry eblk val chain bs n He Hd Hline Hsub Hn.
    destruct (read_each_reaches v val (length chain) n bs s)
      as (s' & Hread & Hnodes & _); [|done|by eauto].
    intros b Hb.
    destruct (straight_line_reaches s v val chain entry 0) with (b := b)
      as (k & Hk & Hr); [by eapply reaches_def|done|by apply Hsub|].
    exists k. split; [lia|done].
Qed.

Lemma line_is_straight : straight_line line x 0 [1; 2; 3].
Proof.
  simpl. repeat split.
  - by exists (MkBlock [0] ∅ true).
  - by exists (MkBlock [1] ∅ true).
  - by exists (MkBlock [2] ∅ true).
Defined.

Lemma single_predecessor_reads_through_witness :
  (blocks line !! 1 = Some (MkBlock [0] ∅ true) ∧
   readVariable 1 x 0 line = (Ok 0, line) ∧
   ∃ s2, readVariableRecursive 2 x 1 line = (Ok 0, s2) ∧
         nodes s2 = nodes line ∧ incompletePhis s2 = incompletePhis line) ∧
  (blocks line !! 0 = Some (MkBlock [] {["x" := 0]} true) ∧
   straight_line line x 0 [1; 2; 3] ∧
   ∃ s', read_each 7 x [3; 1; 2] line = (Ok [0; 0; 0], s') ∧
         nodes s' = nodes line).
Proof.
  destruct (single_predecessor_reads_through line x) as [Hone Hchain].
  split.
  - split; [reflexivity|]. split; [reflexivity|].
    apply (Hone 1 1 (MkBlock [0] ∅ true) 0 (Ok 0) line); reflexivity.
  - split; [reflexivity|]. split; [exact line_is_straight|].
    apply (Hchain 0 (MkBlock [] {["x" := 0]} true) 0 [1; 2; 3] [3; 1; 2] 7).
    + reflexivity.
    + reflexivity.
    + exact line_is_straight.
    + intros b Hb. apply list_elem_of_In in Hb. apply list_elem_of_In.
      simpl in *. tauto.
    + simpl. lia.
Defined.

(** ** Completing a phi *)

Lemma readVariable_nodes_kept n v b s r s' :
  readVariable n v b s = (r, s') → nodes_kept nothing s s'.
Proof.
  intros H. destruct (sound_readers n) as (Hrv & _).
  by destruct (Hrv v b s r s' H) as (? & _).
Qed.

Lemma appendOperand_inv phi val s s' :
  appendOperand phi val s = (Ok tt, s') →
  ∃ nm ops b us,
    nodes s !! phi = Some (Phi nm ops b us) ∧
    s' = set_nodes (λ h, <[phi := Phi nm (ops ++ [val]) b us]> h) s.
Proof.
  unfold appendOperand, bind, lookup_node, store_node, modify, raise.
  destruct (nodes s !! phi) as [[| |nm ops b us]|] eqn:E; intros H;
    simplify_eq.
  eauto 10.
Qed.

(** What the loop has done when it ends: the values read are the new
    operands of [phi], in the order of the predecessors, behind the
    operands it had; nothing else about [phi] and no other object that
    existed has changed. *)
Lemma operands_read_spec n v phi ps s vals s1 :
  operands_read n v phi ps s vals s1 →
  ∀ nm ops b us,
  nodes s !! phi = Some (Phi nm ops b us) →
  length vals = length ps ∧
  nodes s1 !! phi = Some (Phi nm (ops ++ vals) b us) ∧
  nodes_kept (just phi) s s1.
Proof.
  induction 1 as [s|pred ps s val s1 s2 vals s3 Hread Happ Hrest IH];
    intros nm ops b us Hphi.
  - rewrite app_nil_r. split; [done|]. split; [done|]. by intros ???.
  - pose proof (readVariable_nodes_kept _ _ _ _ _ _ Hread) as Hkept.
    assert (Hphi1 : nodes s1 !! phi = Some (Phi nm ops b us))
      by (apply Hkept; [done|by intros []]).
    apply appendOperand_inv in Happ as (nm' & ops' & b' & us' & Hphi1' & ->).
    rewrite Hphi1 in Hphi1'. simplify_eq.
    destruct (IH nm' (ops' ++ [val]) b' us') as (Hlen & Hphi3 & Hkept3).
    { cbn. apply list_lookup_insert_eq. by eapply lookup_lt_Some. }
    split; [simpl; by rewrite Hlen|].
    split; [by rewrite <- app_assoc in Hphi3|].
    intros a nd Ha Hne. apply Hkept3; [|done]. cbn.
    rewrite list_lookup_insert_ne by (intros ->; by apply Hne).
    apply Hkept; [done|by intros []].
Qed.

Lemma operands_read_for_each n v phi ps s s1 :
  for_each ps (λ pred,
    let* op := readVariable n v pred in appendOperand phi op) s
  = (Ok tt, s1) ↔
  ∃ vals, operands_read n v phi ps s vals s1.
Proof.
  revert s. induction ps as [|pred ps IH]; intros s; simpl.
  - split.
    + intros [= <-]. exists []. constructor.
    + intros (vals & H). by inversion H.
  - split.
    + intros H. apply bind_ok_inv in H as ([] & s2 & Hbody & H).
      apply bind_ok_inv in Hbody as (val & s0 & Hread & Happ).
      apply IH in H as (vals & H). exists (val :: vals).
      by econstructor.
    + intros (vals & H). inversion H as [|???????? Hread Happ Hrest]; subst.
      erewrite bind_ok; [apply IH; eauto|].
      by rewrite (bind_ok _ _ _ _ _ Hread).
Qed.

Lemma addPhiOperands_unfold n v phi s nm ops b us blk :
  nodes s !! phi = Some (Phi nm ops b us) →
  blocks s !! b = Some blk →
  addPhiOperands (S n) v phi s
  = (for_each (preds blk) (λ pred,
       let* op := readVariable n v pred in appendOperand phi op) >>
     tryRemoveTrivialPhi n phi) s.
Proof.
  intros Hphi Hb. simpl.
  assert (get_block phi s = (Ok b, s)) as Hget.
  { unfold get_block. by rewrite (bind_ok _ _ _ _ _ (lookup_node_ok _ _ _ Hphi)). }
  rewrite (bind_ok _ _ _ _ _ Hget).
  by rewrite (bind_ok _ _ _ _ _ (lookup_block_ok _ _ _ Hb)).
Qed.

(** X16: [addPhiOperands(v, p)] reads [v] in each predecessor of
    [p.block], in the order of [preds], and appends each value read to
    [p.operands], behind the operands [p] had; the appends leave the users
    of [p] and every other object that existed as they were; then the
    call goes on as [tryRemoveTrivialPhi(p)] and ends as it ends.
    Whenever the call returns, it has done so. *)
Theorem addPhiOperands_appends n v phi s nm ops b us blk :
  nodes s !! phi = Some (Phi nm ops b us) →
  blocks s !! b = Some blk →
  (∀ vals s1,
     operands_read n v phi (preds blk) s vals s1 →
     length vals = length (preds blk) ∧
     operands_of s1 phi = Some (ops ++ vals) ∧
     (∀ a, is_Some (nodes s !! a) → users_of s1 a = users_of s a) ∧
     addPhiOperands (S n) v phi s = tryRemoveTrivialPhi n phi s1) ∧
  (∀ val s',
     addPhiOperands (S n) v phi s = (Ok val, s') →
     ∃ vals s1,
       operands_read n v phi (preds blk) s vals s1 ∧
       tryRemoveTrivialPhi n phi s1 = (Ok val, s')).
Proof.
  intros Hphi Hb. split.
  - intros vals s1 Hloop.
    destruct (operands_read_spec _ _ _ _ _ _ _ Hloop _ _ _ _ Hphi)
      as (Hlen & Hphi1 & Hkept).
    split; [done|]. split; [unfold operands_of; by rewrite Hphi1|].
    split.
    + intros a [nd Ha]. unfold users_of.
      destruct (decide (a = phi)) as [->|Hne].
      * by rewrite Hphi1, Hphi.
      * by rewrite (Hkept a nd Ha Hne), Ha.
    + rewrite (addPhiOperands_unfold n v phi s nm ops b us blk) by done.
      apply (bind_ok _ (λ _, tryRemoveTrivialPhi n phi) s tt s1).
      apply operands_read_for_each. eauto.
  - intros val s' H.
    rewrite (addPhiOperands_unfold n v phi s nm ops b us blk) in H by done.
    apply bind_ok_inv in H as ([] & s1 & Hloop & H).
    apply operands_read_for_each in Hloop as (vals & Hloop). eauto.
Qed.

Lemma half_built_merge_operands_read :
  operands_read 4 x 2 [1; 2] half_built_merge [0; 1] merge_completed.
Proof.
  eapply operands_read_cons; [reflexivity|reflexivity|].
  eapply operands_read_cons; [reflexivity|reflexivity|].
  apply operands_read_nil.
Defined.

Lemma addPhiOperands_appends_witness :
  nodes half_built_merge !! 2 = Some (Phi "" [] 3 []) ∧
  blocks half_built_merge !! 3 = Some (MkBlock [1; 2] ∅ false) ∧
  operands_read 4 x 2 [1; 2] half_built_merge [0; 1] merge_completed ∧
  operands_of merge_completed 2 = Some [0; 1] ∧
  addPhiOperands 5 x 2 half_built_merge
  = tryRemoveTrivialPhi 4 2 merge_completed ∧
  ∃ vals s1,
    operands_read 4 x 2 [1; 2] half_built_merge vals s1 ∧
    tryRemoveTrivialPhi 4 2 s1 = (Ok 2, merge_completed).
Proof.
  assert (H1 : nodes half_built_merge !! 2 = Some (Phi "" [] 3 []))
    by reflexivity.
  assert (H2 : blocks half_built_merge !! 3 = Some (MkBlock [1; 2] ∅ false))
    by reflexivity.
  destruct (addPhiOperands_appends 4 x 2 half_built_merge _ _ _ _ _ H1 H2)
    as [Hloop Hret].
  destruct (Hloop _ _ half_built_merge_operands_read) as (_ & Hops & _ & Heq).
  split; [exact H1|]. split; [exact H2|].
  split; [exact half_built_merge_operands_read|].
  split; [exact Hops|]. split; [exact Heq|].
  apply Hret. reflexivity.
Defined.
(** ** What the scan decides *)

Lemma scan_operands_candidate phi c ops :
  scan_operands phi (Some c) ops = NonTrivial ↔
  ∃ b, b ∈ ops ∧ b ≠ c ∧ b ≠ phi.
Proof.
  induction ops as [|op ops IH]; simpl.
  - split; [done|]. intros (b & Hb & _). by apply elem_of_nil in Hb.
  - destruct (decide (op = c)) as [->|Hc].
    + rewrite bool_decide_eq_true_2 by done. simpl. rewrite IH. split.
      * intros (b & Hb & ?). exists b. split; [by right|done].
      * intros (b & Hb & Hbc & Hbphi). exists b. split; [|done].
        apply elem_of_cons in Hb as [->|Hb]; done.
    + rewrite bool_decide_eq_false_2 by congruence. simpl.
      destruct (decide (op = phi)) as [->|Hphi].
      * rewrite bool_decide_eq_true_2 by done. rewrite IH. split.
        -- intros (b & Hb & ?). exists b. split; [by right|done].
        -- intros (b & Hb & Hbc & Hbphi). exists b. split; [|done].
           apply elem_of_cons in Hb as [->|Hb]; done.
      * rewrite bool_decide_eq_false_2 by done. split; [|done].
        intros _. exists op. split; [by left|done].
Qed.

(** The scan ends in [return phi] exactly when the phi has two distinct
    operands other than itself. *)
Lemma scan_operands_nontrivial phi ops :
  scan_operands phi None ops = NonTrivial ↔
  ∃ a b, a ∈ ops ∧ b ∈ ops ∧ a ≠ b ∧ a ≠ phi ∧ b ≠ phi.
Proof.
  induction ops as [|op ops IH]; simpl.
  - split; [done|]. intros (a & b & Ha & _). by apply elem_of_nil in Ha.
  - destruct (decide (op = phi)) as [->|Hphi].
    + rewrite bool_decide_eq_true_2 by done. rewrite IH. split.
      * intros (a & b & Ha & Hb & ?). exists a, b.
        split; [by right|]. split; [by right|done].
      * intros (a & b & Ha & Hb & Hab & Haphi & Hbphi). exists a, b.
        apply elem_of_cons in Ha as [->|Ha]; [done|].
        apply elem_of_cons in Hb as [->|Hb]; done.
    + rewrite bool_decide_eq_false_2 by done.
      rewrite scan_operands_candidate. split.
      * intros (b & Hb & Hbop & Hbphi). exists op, b.
        split; [by left|]. split; [by right|]. done.
      * intros (a & b & Ha & Hb & Hab & Haphi & Hbphi).
        destruct (decide (a = op)) as [->|Haop].
        -- exists b. apply elem_of_cons in Hb as [->|Hb]; [done|].
           split; [done|]. split; [congruence|done].
        -- exists a. apply elem_of_cons in Ha as [->|Ha]; [done|].
           done.
Qed.


(** * Further properties *)

(** ** Every run is a sequence of elementary mutations *)

Lemma traced_ret {A} W (a : A) : traced W (ret a).
Proof. by intros s r s' [= <- <-]. Qed.

Lemma traced_raise {A} W e : traced W (@raise A e).
Proof. by intros s r s' [= <- <-]. Qed.

Lemma traced_out_of_fuel {A} W : traced W (@out_of_fuel A).
Proof. by intros s r s' [= <- <-]. Qed.

Lemma traced_bind {A B} W (c : M A) (k : A → M B) :
  traced W c → (∀ a, traced W (k a)) → traced W (bind c k).
Proof.
  intros Hc Hk s r s' H.
  apply bind_inv in H as [(a & s1 & Hca & Hka)|(r1 & Hcr & _ & _)].
  - etrans; [by eapply Hc|by eapply Hk].
  - by eapply Hc.
Qed.

Lemma traced_for_each {A} W (l : list A) (body : A → M unit) :
  (∀ a, traced W (body a)) → traced W (for_each l body).
Proof.
  intros Hbody. induction l as [|a l IH]; simpl.
  - apply traced_ret.
  - apply traced_bind; auto.
Qed.

Lemma traced_lookup_node W a : traced W (lookup_node a).
Proof. intros s r s'. unfold lookup_node. by case_match; intros [= <- <-]. Qed.

Lemma traced_lookup_block W b : traced W (lookup_block b).
Proof. intros s r s'. unfold lookup_block. by case_match; intros [= <- <-]. Qed.

Lemma traced_registry_get W b : traced W (registry_get b).
Proof. apply traced_raise. Qed.

Lemma traced_alloc W nd : traced W (alloc nd).
Proof. intros s r s' [= <- <-]. apply rtc_once. constructor. Qed.

Lemma traced_get_operands W a : traced W (get_operands a).
Proof.
  apply traced_bind; [apply traced_lookup_node|].
  intros []; (apply traced_ret || apply traced_raise).
Qed.

Lemma traced_get_block W a : traced W (get_block a).
Proof.
  apply traced_bind; [apply traced_lookup_node|].
  intros []; (apply traced_ret || apply traced_raise).
Qed.

Lemma traced_isinstance_Phi W a : traced W (isinstance_Phi a).
Proof.
  apply traced_bind; [apply traced_lookup_node|].
  intros []; apply traced_ret.
Qed.

Lemma traced_appendOperand W phi op : traced W (appendOperand phi op).
Proof.
  intros s r s'. unfold appendOperand, bind, lookup_node, store_node, modify,
    raise.
  destruct (nodes s !! phi) as [[| |nm ops b us]|] eqn:E; intros [= <- <-];
    try done.
  apply rtc_once. by constructor.
Qed.

Lemma list_remove_sublist eq l l' :
  list_remove eq l = Ok (Some l') → l' `sublist_of` l.
Proof.
  revert l'. induction l as [|item l IH]; intros l'; simpl; [done|].
  destruct (eq item) as [[|]|e|]; try done.
  - intros [= ->]. by apply sublist_cons.
  - destruct (list_remove eq l) as [[l0|]|e|]; try done.
    intros [= <-]. apply sublist_skip. by apply IH.
Qed.

Lemma traced_users_remove W n phi x : traced W (users_remove n phi x).
Proof.
  intros s r s'. unfold users_remove, bind, lookup_node, store_node, modify,
    raise, ret.
  destruct (nodes s !! phi) as [[| |nm ops b us]|] eqn:E;
    try (by intros [= <- <-]).
  destruct (list_remove (λ item, py_eq n s item x) us) as [[us'|]|e|] eqn:Hrm;
    intros [= <- <-]; try done.
  apply rtc_once. econstructor; [done|]. by eapply list_remove_sublist.
Qed.

Lemma traced_writeVariable (W : variable → Prop) v b val :
  W v → traced W (writeVariable v b val).
Proof.
  intros HW s r s' H.
  apply writeVariable_inv in H as [(blk & Hb & -> & ->)|(_ & -> & ->)];
    [|done].
  apply rtc_once. by constructor.
Qed.

Lemma traced_registry_set W b v phi : traced W (registry_set b v phi).
Proof. by intros s r s' [= <- <-]. Qed.

Lemma traced_set_sealed W b : traced W (set_sealed b).
Proof.
  intros s r s'. unfold set_sealed, bind, lookup_block, store_block, modify.
  destruct (blocks s !! b) as [blk|] eqn:E; intros [= <- <-]; [|done].
  apply rtc_once. by constructor.
Qed.

Lemma traced_tryRemoveTrivialPhi W n : ∀ phi,
  traced W (tryRemoveTrivialPhi n phi).
Proof.
  induction n as [|n IH]; intros phi; simpl; [apply traced_out_of_fuel|].
  apply traced_bind; [apply traced_get_operands|]. intros ops.
  destruct (scan_operands phi None ops) as [|same]; [apply traced_ret|].
  apply traced_bind.
  { destruct same; [apply traced_ret|apply traced_alloc]. }
  intros same'. apply traced_bind; [apply traced_users_remove|].
  intros users. apply traced_bind; [apply traced_ret|]. intros _.
  apply traced_bind; [destruct users; (apply traced_raise || apply traced_ret)|].
  intros uses. apply traced_bind; [|intros _; apply traced_ret].
  apply traced_for_each. intros use.
  apply traced_bind; [apply traced_isinstance_Phi|].
  intros []; [|apply traced_ret].
  apply traced_bind; [apply IH|]. intros _. apply traced_ret.
Qed.

Lemma traced_readers (W : variable → Prop) v n :
  W v →
  (∀ b, traced W (readVariable n v b)) ∧
  (∀ b, traced W (readVariableRecursive n v b)) ∧
  (∀ phi, traced W (addPhiOperands n v phi)).
Proof.
  intros HW. induction n as [|n (IHrv & IHrvr & IHapo)].
  { split; [|split]; intros ?; apply traced_out_of_fuel. }
  split; [|split].
  - intros b. simpl. apply traced_bind; [apply traced_lookup_block|].
    intros blk. destruct (defs blk !! name v); [apply traced_ret|apply IHrvr].
  - intros b. simpl. apply traced_bind; [apply traced_lookup_block|].
    intros blk. apply traced_bind.
    + destruct (negb (sealed blk)).
      * apply traced_bind; [apply traced_raise|]. intros phi.
        apply traced_bind; [apply traced_registry_set|].
        intros _. apply traced_ret.
      * destruct (length (preds blk) =? 1).
        -- apply traced_bind.
           { unfold first_pred. destruct (preds blk);
               [apply traced_raise|apply traced_ret]. }
           intros p. apply traced_bind; [apply IHrv|].
           intros val. apply traced_ret.
        -- apply traced_bind; [apply traced_raise|]. intros phi.
           apply traced_bind; [by apply traced_writeVariable|]. intros _.
           apply traced_bind; [apply IHapo|]. intros val. apply traced_ret.
    + intros oval. apply traced_bind.
      { destruct oval; [apply traced_ret|apply traced_raise]. }
      intros val. apply traced_bind; [by apply traced_writeVariable|].
      intros _. apply traced_ret.
  - intros phi. simpl.
    apply traced_bind; [apply traced_get_block|]. intros blk.
    apply traced_bind; [apply traced_lookup_block|]. intros b.
    apply traced_bind; [|intros _; apply traced_tryRemoveTrivialPhi].
    apply traced_for_each. intros pred.
    apply traced_bind; [apply IHrv|]. intros op. apply traced_appendOperand.
Qed.

Lemma traced_sealBlock n b : traced (λ _, True) (sealBlock n b).
Proof.
  unfold sealBlock. apply traced_bind; [apply traced_registry_get|].
  intros d. apply traced_bind; [|intros _; apply traced_set_sealed].
  apply traced_for_each. intros v.
  apply traced_bind.
  { apply traced_bind; [apply traced_registry_get|]. intros d'.
    destruct (dict_get v d'); [apply traced_ret|apply traced_raise]. }
  intros phi. apply traced_bind; [|intros _; apply traced_ret].
  by apply traced_readers.
Qed.

(** ** What no mutation does *)

Lemma same_object_refl nd : same_object nd nd.
Proof. destruct nd; simpl; done. Qed.

Lemma same_object_trans nd1 nd2 nd3 :
  same_object nd1 nd2 → same_object nd2 nd3 → same_object nd1 nd3.
Proof.
  destruct nd1, nd2, nd3; simpl; try done.
  - intros [-> ->] [-> ->]. done.
  - intros (-> & -> & Hp1 & Hs1) (-> & -> & Hp2 & Hs2).
    split; [done|]. split; [done|]. split; by etrans.
Qed.

Lemma objects_persist_refl s : objects_persist s s.
Proof. intros a nd Ha. exists nd. split; [done|apply same_object_refl]. Qed.

Lemma objects_persist_trans s1 s2 s3 :
  objects_persist s1 s2 → objects_persist s2 s3 → objects_persist s1 s3.
Proof.
  intros H1 H2 a nd Ha.
  destruct (H1 _ _ Ha) as (nd2 & Ha2 & Hs2).
  destruct (H2 _ _ Ha2) as (nd3 & Ha3 & Hs3).
  exists nd3. split; [done|]. by eapply same_object_trans.
Qed.

Lemma objects_persist_store s phi nd nd' :
  nodes s !! phi = Some nd → same_object nd nd' →
  objects_persist s (set_nodes (λ h, <[phi := nd']> h) s).
Proof.
  intros Hphi Hsame a nd0 Ha. cbn.
  destruct (decide (a = phi)) as [->|Hne].
  - exists nd'. split; [|by simplify_eq].
    apply list_lookup_insert_eq. by eapply lookup_lt_Some.
  - exists nd0. rewrite list_lookup_insert_ne by done.
    split; [done|apply same_object_refl].
Qed.

Lemma mutation_objects_persist W s s' :
  mutation W s s' → objects_persist s s'.
Proof.
  destruct 1 as [s nd|s phi nm ops b us op Hphi|s phi nm ops b us us' Hphi Hsub
                 |s v b blk val _ Hb|s b d v phi Hreg|s b blk Hb].
  - intros a nd' Ha. exists nd'. cbn.
    split; [by apply lookup_app_l_Some|apply same_object_refl].
  - eapply objects_persist_store; [done|]. simpl.
    split; [done|]. split; [done|]. split; [by apply prefix_app_r|done].
  - eapply objects_persist_store; [done|]. simpl.
    split; [done|]. split; [done|]. split; [done|]. done.
  - intros a nd Ha. exists nd. split; [done|apply same_object_refl].
  - intros a nd Ha. exists nd. split; [done|apply same_object_refl].
  - intros a nd Ha. exists nd. split; [done|apply same_object_refl].
Qed.

Lemma rtc_objects_persist W s s' :
  rtc (mutation W) s s' → objects_persist s s'.
Proof.
  induction 1 as [s|s1 s2 s3 Hstep _ IH]; [apply objects_persist_refl|].
  eapply objects_persist_trans; [|done]. by eapply mutation_objects_persist.
Qed.

Lemma mutation_defs_outside_kept (W : variable → Prop) (N : string → Prop)
    s s' :
  (∀ v, W v → N (name v)) →
  mutation W s s' → defs_outside_kept N s s'.
Proof.
  intros HWN.
  assert (Hrefl : ∀ s0 s0', blocks s0' = blocks s0 →
            defs_outside_kept N s0 s0').
  { intros s0 s0' Heq. split; [by rewrite Heq|].
    intros b blk Hb. rewrite Heq. eauto. }
  destruct 1 as [s nd|s phi nm ops b us op Hphi|s phi nm ops b us us' Hphi Hsub
                 |s v b blk val Hv Hb|s b d v phi Hreg|s b blk Hb];
    try (by apply Hrefl).
  - split; [cbn; by rewrite length_insert|].
    intros b' blk' Hb'. destruct (decide (b' = b)) as [->|Hne].
    + eexists. split; [by apply written_lookup|]. simplify_eq. simpl.
      split; [done|]. intros w Hw. apply defs_lookup_insert_ne.
      intros <-. apply Hw. by apply HWN.
    + exists blk'. split; [|done]. unfold written; cbn.
      by rewrite list_lookup_insert_ne.
  - split; [cbn; by rewrite length_insert|].
    intros b' blk' Hb'. destruct (decide (b' = b)) as [->|Hne].
    + eexists. split.
      { cbn. apply list_lookup_insert_eq. by eapply lookup_lt_Some. }
      by simplify_eq.
    + exists blk'. split; [|done]. cbn. by rewrite list_lookup_insert_ne.
Qed.

Lemma rtc_defs_outside_kept (W : variable → Prop) (N : string → Prop) s s' :
  (∀ v, W v → N (name v)) →
  rtc (mutation W) s s' → defs_outside_kept N s s'.
Proof.
  intros HWN. induction 1 as [s|s1 s2 s3 Hstep _ [IHl IH]].
  - split; [done|]. intros b blk Hb. eauto.
  - destruct (mutation_defs_outside_kept W N _ _ HWN Hstep) as [Hl H].
    split; [congruence|]. intros b blk Hb.
    destruct (H _ _ Hb) as (blk2 & Hb2 & Hp2 & Hd2).
    destruct (IH _ _ Hb2) as (blk3 & Hb3 & Hp3 & Hd3).
    exists blk3. split; [done|]. split; [congruence|].
    intros w Hw. rewrite Hd3, Hd2; done.
Qed.

Lemma mutation_registered W s s' :
  mutation W s s' → registered s' = registered s.
Proof.
  destruct 1 as [s nd|s phi nm ops b us op Hphi|s phi nm ops b us us' Hphi Hsub
                 |s v b blk val Hv Hb|s b d v phi Hreg|s b blk Hb];
    try done.
  unfold registered. cbn. rewrite dom_insert_L.
  apply subseteq_union_1_L, singleton_subseteq_l, elem_of_dom. eauto.
Qed.

Lemma rtc_registered W s s' :
  rtc (mutation W) s s' → registered s' = registered s.
Proof.
  induction 1 as [s|s1 s2 s3 Hstep _ IH]; [done|].
  rewrite IH. by eapply mutation_registered.
Qed.

Lemma reads_of_traced n v s s' :
  reads_of n v s s' → rtc (mutation (λ u, name u = name v)) s s'.
Proof.
  destruct (traced_readers (λ u, name u = name v) v n eq_refl)
    as (Hrv & Hrvr & Hapo).
  intros [(b & r & H)|[(b & r & H)|(phi & r & H)]].
  - exact (Hrv b _ _ _ H).
  - exact (Hrvr b _ _ _ H).
  - exact (Hapo phi _ _ _ H).
Qed.

Lemma mutation_mono (W W' : variable → Prop) s s' :
  (∀ v, W v → W' v) → mutation W s s' → mutation W' s s'.
Proof. intros HW. destruct 1; econstructor; eauto. Qed.

Lemma run_of_traced n s s' :
  run_of n s s' → rtc (mutation (λ _, True)) s s'.
Proof.
  intros [(v & H)|[(phi & r & H)|[(b & r & H)|(v & b & val & r & H)]]].
  - apply reads_of_traced in H. eapply rtc_subrel; [|done].
    intros ??. by apply mutation_mono.
  - exact (traced_tryRemoveTrivialPhi _ n phi _ _ _ H).
  - exact (traced_sealBlock n b _ _ _ H).
  - exact (traced_writeVariable (λ _, True) v b val I _ _ _ H).
Qed.

(** X1: no call of the module changes what an object is.  Through any
    run, started in any state, every object stays at its handle; an
    [Undef] or an [Operation] stays exactly as it is; a [Phi] keeps its
    name and its owning block, its operand list only grows at the end and
    its users list only loses elements. *)
Theorem objects_keep_identity n s s' :
  run_of n s s' → objects_persist s s'.
Proof.
  intros H. eapply rtc_objects_persist. exact (run_of_traced n _ _ H).
Qed.

Lemma objects_keep_identity_witness :
  run_of 5 half_built_merge merge_completed ∧
  objects_persist half_built_merge merge_completed.
Proof.
  assert (H : run_of 5 half_built_merge merge_completed).
  { left. exists x. right. right. exists 2, (Ok 2). reflexivity. }
  split; [exact H|]. exact (objects_keep_identity 5 _ _ H).
Defined.

(** X2: no call of the module adds a key to [incompletePhis] or removes
    one: the blocks that have a pending entry are the same after any run
    as before it.  (No call gets past the subscript
    [incompletePhis[block]], and no statement deletes a key.) *)
Theorem registry_keys_fixed n s s' :
  run_of n s s' → registered s' = registered s.
Proof. intros H. eapply rtc_registered. exact (run_of_traced n _ _ H). Qed.

Lemma registry_keys_fixed_witness :
  run_of 5 half_built_merge merge_completed ∧
  registered merge_completed = registered half_built_merge.
Proof.
  assert (H : run_of 5 half_built_merge merge_completed).
  { left. exists x. right. right. exists 2, (Ok 2). reflexivity. }
  split; [exact H|]. exact (registry_keys_fixed 5 _ _ H).
Defined.

(** X3: reading [v], through [readVariable], [readVariableRecursive] or
    [addPhiOperands], whatever the outcome, adds and drops no block,
    changes no predecessor list, and touches no def-map entry under a name
    other than [v.name]. *)
Theorem reads_keep_other_names n v s s' :
  reads_of n v s s' → defs_outside_kept (λ w, w = name v) s s'.
Proof.
  intros H.
  eapply rtc_defs_outside_kept; [|exact (reads_of_traced n v _ _ H)].
  intros u Hu. exact Hu.
Qed.

Lemma reads_keep_other_names_witness :
  reads_of 7 x line line_read ∧
  defs_outside_kept (λ w, w = name x) line line_read.
Proof.
  assert (H : reads_of 7 x line line_read).
  { left. exists 3, (Ok 0). reflexivity. }
  split; [exact H|]. exact (reads_keep_other_names 7 x _ _ H).
Defined.

(** X4: a read changes no object that existed before it, no predecessor
    list and no sealed flag, and when it returns it has left the registry
    as it was; [addPhiOperands(v, phi)] does the same except for the
    object [phi] itself. *)
Theorem reads_leave_graph n v s :
  (∀ b r s', readVariable n v b s = (r, s') → post nothing s r s') ∧
  (∀ b r s', readVariableRecursive n v b s = (r, s') →
             post nothing s r s') ∧
  (∀ phi r s', addPhiOperands n v phi s = (r, s') →
               post (just phi) s r s').
Proof.
  destruct (sound_readers n) as (Hrv & Hrvr & Hapo).
  split; [|split]; intros ? r s' H.
  - by apply Hrv in H.
  - by apply Hrvr in H.
  - by apply Hapo in H.
Qed.

Lemma reads_leave_graph_witness :
  readVariable 7 x 3 line = (Ok 0, line_read) ∧
  post nothing line (Ok 0) line_read ∧
  addPhiOperands 5 x 2 half_built_merge = (Ok 2, merge_completed) ∧
  post (just 2) half_built_merge (Ok 2) merge_completed.
Proof.
  destruct (reads_leave_graph 7 x line) as (Hrv & _ & _).
  destruct (reads_leave_graph 5 x half_built_merge) as (_ & _ & Hapo).
  split; [reflexivity|]. split; [apply (Hrv 3); reflexivity|].
  split; [reflexivity|]. apply (Hapo 2); reflexivity.
Defined.

(** ** [tryRemoveTrivialPhi], case by case *)

Lemma get_operands_operands_of a s ops :
  get_operands a s = (Ok ops, s) ↔ operands_of s a = Some ops.
Proof.
  unfold get_operands, operands_of, bind, lookup_node, ret, raise.
  destruct (nodes s !! a) as [[| |]|]; split; intros; by simplify_eq.
Qed.

(** X5: [tryRemoveTrivialPhi(phi)] returns exactly when [phi] has two
    distinct operands other than itself; it then returns [phi] and has
    changed nothing. *)
Theorem tryRemoveTrivialPhi_returns_iff n phi s val s' :
  tryRemoveTrivialPhi (S n) phi s = (Ok val, s') ↔
  val = phi ∧ s' = s ∧
  ∃ ops, operands_of s phi = Some ops ∧ merges_two phi ops.
Proof.
  split.
  - intros H. apply tryRemoveTrivialPhi_returns in H
      as (-> & -> & ops & Hops & Hscan).
    split; [done|]. split; [done|]. exists ops.
    split; [by apply get_operands_operands_of|].
    by apply scan_operands_nontrivial.
  - intros (-> & -> & ops & Hops & Hm).
    eapply tryRemoveTrivialPhi_nontrivial;
      [by apply get_operands_operands_of|by apply scan_operands_nontrivial].
Qed.

Lemma tryRemoveTrivialPhi_returns_iff_witness :
  tryRemoveTrivialPhi 1 2 merging_phi = (Ok 2, merging_phi) ∧
  ∃ ops, operands_of merging_phi 2 = Some ops ∧ merges_two 2 ops.
Proof.
  assert (H : tryRemoveTrivialPhi 1 2 merging_phi = (Ok 2, merging_phi))
    by reflexivity.
  split; [exact H|].
  exact (proj2 (proj2 (proj1
    (tryRemoveTrivialPhi_returns_iff 0 2 merging_phi 2 merging_phi) H))).
Defined.

Lemma scan_operands_candidate_same phi c ops same :
  scan_operands phi (Some c) ops = Same same → same = Some c.
Proof.
  induction ops as [|op ops IH]; simpl; [by intros [= <-]|].
  destruct (bool_decide (Some c = Some op) || bool_decide (op = phi));
    [done|discriminate].
Qed.

Lemma scan_operands_only_self phi ops same :
  scan_operands phi None ops = Same same →
  only_self phi ops = bool_decide (same = None).
Proof.
  induction ops as [|op ops IH]; simpl; [by intros [= <-]|].
  destruct (decide (op = phi)) as [->|Hne].
  - rewrite !bool_decide_eq_true_2 by done. simpl. exact IH.
  - rewrite (bool_decide_eq_false_2 (op = phi)) by done. simpl.
    intros H. apply scan_operands_candidate_same in H as ->.
    by rewrite bool_decide_eq_false_2.
Qed.

(** X6: a phi that does not merge two distinct operands other than
    itself is never replaced: [tryRemoveTrivialPhi] builds an [Undef] if
    the phi has no operand other than itself, and then fails at
    [users = phi.users.remove(phi)], which looks through the users for
    the first one that is the phi or equal to it: with [ValueError] if
    there is none, and else, that user removed, with [TypeError] at
    [for use in users]. *)
Theorem tryRemoveTrivialPhi_trivial_raises n phi s nm ops b us :
  nodes s !! phi = Some (Phi nm ops b us) →
  ¬ merges_two phi ops →
  let s1 := if only_self phi ops then set_nodes (λ h, h ++ [Undef]) s
            else s in
  tryRemoveTrivialPhi (S n) phi s
  = match list_remove (λ item, py_eq n s1 item phi) us with
    | Ok None => (Raise ValueError, s1)
    | Ok (Some us') =>
        (Raise TypeError,
         set_nodes (λ h, <[phi := Phi nm ops b us']> h) s1)
    | Raise e => (Raise e, s1)
    | OutOfFuel => (OutOfFuel, s1)
    end.
Proof.
  intros Hphi Hm s1.
  assert (Hops : get_operands phi s = (Ok ops, s)).
  { apply get_operands_operands_of. unfold operands_of. by rewrite Hphi. }
  simpl. rewrite (bind_ok _ _ _ _ _ Hops).
  destruct (scan_operands phi None ops) as [|same] eqn:Hscan.
  { exfalso. by apply Hm, scan_operands_nontrivial. }
  apply scan_operands_only_self in Hscan. subst s1. rewrite Hscan.
  assert (Hrm : ∀ s0, nodes s0 !! phi = Some (Phi nm ops b us) →
     ∀ (k : pyobj → M addr),
       (∀ s2, k PyNone s2 = (Raise TypeError, s2)) →
       (let* users := users_remove n phi phi in k users) s0
       = match list_remove (λ item, py_eq n s0 item phi) us with
         | Ok None => (Raise ValueError, s0)
         | Ok (Some us') =>
             (Raise TypeError,
              set_nodes (λ h, <[phi := Phi nm ops b us']> h) s0)
         | Raise e => (Raise e, s0)
         | OutOfFuel => (OutOfFuel, s0)
         end).
  { intros s0 Hphi0 k Hk. unfold users_remove. rewrite !bind_assoc.
    rewrite (bind_ok _ _ _ _ _ (lookup_node_ok _ _ _ Hphi0)).
    unfold bind at 1.
    destruct (list_remove (λ item, py_eq n s0 item phi) us) as [[us'|]|e|];
      try done.
    unfold bind at 1, store_node, modify, ret. apply Hk. }
  destruct same as [c|].
  - rewrite bool_decide_eq_false_2 by done.
    erewrite bind_ok by reflexivity. by apply Hrm.
  - rewrite bool_decide_eq_true_2 by done.
    unfold new_Undef. erewrite bind_ok by reflexivity.
    apply Hrm; [|done]. cbn. by apply lookup_app_l_Some.
Qed.

Lemma tryRemoveTrivialPhi_trivial_raises_witness :
  nodes twin_user !! 1 = Some (Phi "" [0] 0 [2]) ∧
  ¬ merges_two 1 [0] ∧
  tryRemoveTrivialPhi 5 1 twin_user
  = (Raise TypeError,
     set_nodes (λ h, <[1 := Phi "" [0] 0 []]> h) twin_user).
Proof.
  assert (H1 : nodes twin_user !! 1 = Some (Phi "" [0] 0 [2]))
    by reflexivity.
  assert (H2 : ¬ merges_two 1 [0]).
  { intros (a & b & Ha & Hb & Hab & _).
    apply list_elem_of_singleton in Ha, Hb. congruence. }
  split; [exact H1|]. split; [exact H2|].
  exact (tryRemoveTrivialPhi_trivial_raises 4 1 twin_user _ _ _ _ H1 H2).
Defined.

(** ** Writes *)

(** X7: [writeVariable] overwrites: of two writes under one name in one
    block only the second is left, whichever [Variable] objects were
    used; and a write changes no def-map entry under another name or in
    another block, so a read that finds such an entry returns the same
    value after the write as before. *)
Theorem writeVariable_overwrites u w b val1 val2 s blk :
  blocks s !! b = Some blk →
  (name u = name w →
   (writeVariable u b val1 >> writeVariable w b val2) s
   = writeVariable w b val2 s) ∧
  (∀ n b' blk' old s',
     blocks s !! b' = Some blk' → defs blk' !! name w = Some old →
     name u ≠ name w ∨ b ≠ b' →
     writeVariable u b val1 s = (Ok tt, s') →
     readVariable (S n) w b' s' = (Ok old, s')).
Proof.
  intros Hb. split.
  - intros Hname.
    rewrite (bind_ok _ _ _ _ _ (writeVariable_ok u b val1 s blk Hb)).
    rewrite (writeVariable_ok w b val2 s blk Hb).
    rewrite (writeVariable_ok w b val2 _ _ (written_lookup u b val1 blk s Hb)).
    f_equal. unfold written, set_blocks. cbn. f_equal.
    rewrite list_insert_insert_eq. f_equal. f_equal.
    rewrite Hname. apply defs_insert_insert.
  - intros n b' blk' old s' Hb' Hold Hne Hw.
    rewrite (writeVariable_ok u b val1 s blk Hb) in Hw. simplify_eq.
    destruct (decide (b = b')) as [<-|Hbb].
    + destruct Hne as [Hne|Hne]; [|done]. simplify_eq.
      eapply readVariable_local; [by apply written_lookup|]. simpl.
      by rewrite defs_lookup_insert_ne.
    + eapply readVariable_local; [|done]. unfold written; cbn.
      by rewrite list_lookup_insert_ne.
Qed.

Lemma writeVariable_overwrites_witness :
  blocks diamond !! 1 = Some (MkBlock [0] {["x" := 1]} true) ∧
  (writeVariable x 1 0 >> writeVariable x_again 1 2) diamond
  = writeVariable x_again 1 2 diamond ∧
  readVariable 1 x 2 (written x 1 0 (MkBlock [0] {["x" := 1]} true) diamond)
  = (Ok 2, written x 1 0 (MkBlock [0] {["x" := 1]} true) diamond).
Proof.
  assert (H1 : blocks diamond !! 1 = Some (MkBlock [0] {["x" := 1]} true))
    by reflexivity.
  destruct (writeVariable_overwrites x x_again 1 0 2 diamond _ H1)
    as [Hlast _].
  destruct (writeVariable_overwrites x x 1 0 2 diamond _ H1)
    as [_ Hframe].
  split; [exact H1|]. split; [exact (Hlast eq_refl)|].
  apply (Hframe 0 2 (MkBlock [0] {["x" := 2]} true) 2).
  - reflexivity.
  - reflexivity.
  - right. lia.
  - reflexivity.
Defined.

(** ** Reads never overwrite *)

Lemma defs_kept_refl s s' : blocks s' = blocks s → defs_kept s s'.
Proof. intros Heq b blk w val Hb Hd. rewrite Heq. eauto. Qed.

Lemma defs_kept_trans s1 s2 s3 :
  defs_kept s1 s2 → defs_kept s2 s3 → defs_kept s1 s3.
Proof.
  intros H1 H2 b blk w val Hb Hd.
  destruct (H1 _ _ _ _ Hb Hd) as (blk2 & Hb2 & Hd2). eauto.
Qed.

(** A write under a name that the block did not define at the start
    keeps every entry of the start. *)
Lemma defs_kept_write s s1 v b blk val r s2 :
  defs_kept s s1 →
  blocks s !! b = Some blk → defs blk !! name v = None →
  writeVariable v b val s1 = (r, s2) →
  defs_kept s s2.
Proof.
  intros Hkept Hb Hnone Hw.
  apply writeVariable_inv in Hw as [(blk1 & Hb1 & -> & ->)|(_ & -> & ->)];
    [|done].
  intros b' blk' w x Hb' Hd'.
  destruct (Hkept _ _ _ _ Hb' Hd') as (blk1' & Hb1' & Hd1').
  destruct (decide (b' = b)) as [->|Hne].
  - eexists. split; [by apply written_lookup|]. simplify_eq. simpl.
    rewrite defs_lookup_insert_ne; [done|]. intros <-. congruence.
  - exists blk1'. split; [|done]. unfold written; cbn.
    by rewrite list_lookup_insert_ne.
Qed.

Lemma keeps_defs_bind {A B} (c : M A) (k : A → M B) :
  keeps_defs c → (∀ a, keeps_defs (k a)) → keeps_defs (bind c k).
Proof.
  intros Hc Hk s r s' H.
  apply bind_inv in H as [(a & s1 & Hca & Hka)|(r1 & Hcr & _ & _)].
  - eapply defs_kept_trans; [by eapply Hc|by eapply Hk].
  - by eapply Hc.
Qed.

Lemma keeps_defs_for_each {A} (l : list A) (body : A → M unit) :
  (∀ a, keeps_defs (body a)) → keeps_defs (for_each l body).
Proof.
  intros Hbody. induction l as [|a l IH]; simpl.
  - intros s r s' [= <- <-]. by apply defs_kept_refl.
  - apply keeps_defs_bind; auto.
Qed.

(** A computation that writes no def-map at all. *)
Lemma keeps_defs_traced {A} (c : M A) :
  traced (λ _, False) c → keeps_defs c.
Proof.
  intros Hc s r s' H. apply Hc in H.
  apply (rtc_defs_outside_kept _ (λ _, False)) in H as [_ H]; [|done].
  intros b blk w val Hb Hd. destruct (H _ _ Hb) as (blk' & Hb' & _ & Hd').
  exists blk'. split; [done|]. rewrite Hd'; [done|]. by intros [].
Qed.

Lemma keeps_defs_readers n :
  (∀ v b, keeps_defs (readVariable n v b)) ∧
  (∀ v b s blk r s',
     blocks s !! b = Some blk → defs blk !! name v = None →
     readVariableRecursive n v b s = (r, s') → defs_kept s s') ∧
  (∀ v phi, keeps_defs (addPhiOperands n v phi)).
Proof.
  induction n as [|n (IHrv & IHrvr & IHapo)].
  { split; [|split].
    - intros v b s r s' [= <- <-]. by apply defs_kept_refl.
    - intros v b s blk r s' _ _ [= <- <-]. by apply defs_kept_refl.
    - intros v phi s r s' [= <- <-]. by apply defs_kept_refl. }
  split; [|split].
  - intros v b s r s'. simpl. intros H.
    apply bind_inv in H as [(blk & s0 & Hb & H)|(r1 & Hb & _ & _)].
    + unfold lookup_block in Hb.
      destruct (blocks s !! b) eqn:Eb; simplify_eq.
      destruct (defs blk !! name v) eqn:Ed.
      * unfold ret in H. simplify_eq. by apply defs_kept_refl.
      * by eapply IHrvr.
    + unfold lookup_block in Hb. apply defs_kept_refl.
      destruct (blocks s !! b); by simplify_eq.
  - intros v b s blk r s' Hb Hnone. simpl. intros H.
    rewrite (bind_ok _ _ _ _ _ (lookup_block_ok _ _ _ Hb)) in H.
    assert (Htail : ∀ oval s1, defs_kept s s1 →
              (let* val := local oval in
               writeVariable v b val >> ret val) s1 = (r, s') →
              defs_kept s s').
    { intros [val|] s1 Hkept Ht; [|by cbn in Ht; simplify_eq].
      rewrite (bind_ok _ _ _ val s1 eq_refl) in Ht.
      apply bind_inv in Ht as [([] & s2 & Hw & Ht)|(r1 & Hw & _ & _)].
      - unfold ret in Ht. simplify_eq. by eapply defs_kept_write.
      - by eapply defs_kept_write. }
    match type of H with
    | bind ?c _ _ = _ =>
        assert (Hbranch : ∀ r1 s1, c s = (r1, s1) → defs_kept s s1)
    end.
    { intros r1 s1 Hbr. destruct (sealed blk); simpl in Hbr.
      - destruct (length (preds blk) =? 1).
        + revert Hbr. generalize s r1 s1.
          change (keeps_defs
            (let* p := first_pred blk in
             let* val := readVariable n v p in ret (Some val))).
          apply keeps_defs_bind.
          { unfold first_pred. destruct (preds blk);
              intros ??? [= <- <-]; by apply defs_kept_refl. }
          intros p. apply keeps_defs_bind; [apply IHrv|].
          intros val ??? [= <- <-]. by apply defs_kept_refl.
        + unfold bind, new_Phi, raise in Hbr. simplify_eq.
          by apply defs_kept_refl.
      - unfold bind, new_Phi, raise in Hbr. simplify_eq.
        by apply defs_kept_refl. }
    apply bind_inv in H as [(oval & s1 & Hbr & H)|(r1 & Hbr & _ & _)].
    + eapply Htail; [|done]. by eapply Hbranch.
    + by eapply Hbranch.
  - intros v phi. simpl.
    apply keeps_defs_bind; [apply keeps_defs_traced, traced_get_block|].
    intros blk.
    apply keeps_defs_bind; [apply keeps_defs_traced, traced_lookup_block|].
    intros b. apply keeps_defs_bind.
    + apply keeps_defs_for_each. intros pred.
      apply keeps_defs_bind; [apply IHrv|]. intros op.
      apply keeps_defs_traced, traced_appendOperand.
    + intros _. apply keeps_defs_traced, traced_tryRemoveTrivialPhi.
Qed.

(** X8: a read never overwrites a definition.  Whatever
    [readVariable(v, b)] or [addPhiOperands(v, phi)] does and however it
    ends, every def-map entry that was there before the call, in any
    block and under any name, is there with the same value after it; the
    same holds for [sealBlock]. *)
Theorem reads_never_overwrite n s :
  (∀ v b r s', readVariable n v b s = (r, s') → defs_kept s s') ∧
  (∀ v phi r s', addPhiOperands n v phi s = (r, s') → defs_kept s s') ∧
  (∀ b r s', sealBlock n b s = (r, s') → defs_kept s s').
Proof.
  destruct (keeps_defs_readers n) as (Hrv & _ & Hapo).
  split; [|split].
  - intros v b r s' H. exact (Hrv v b _ _ _ H).
  - intros v phi r s' H. exact (Hapo v phi _ _ _ H).
  - intros b r s' H. revert H. generalize s r s'.
    change (keeps_defs (sealBlock n b)). unfold sealBlock.
    apply keeps_defs_bind; [apply keeps_defs_traced, traced_registry_get|].
    intros d. apply keeps_defs_bind.
    + apply keeps_defs_for_each. intros v. apply keeps_defs_bind.
      * apply keeps_defs_traced. apply traced_bind;
          [apply traced_registry_get|].
        intros d'. destruct (dict_get v d');
          [apply traced_ret|apply traced_raise].
      * intros phi. apply keeps_defs_bind; [apply Hapo|].
        intros _ ??? [= <- <-]. by apply defs_kept_refl.
    + intros _. apply keeps_defs_traced, traced_set_sealed.
Qed.

Lemma reads_never_overwrite_witness :
  readVariable 7 x 3 line = (Ok 0, line_read) ∧
  defs_kept line line_read ∧
  addPhiOperands 5 x 2 half_built_merge = (Ok 2, merge_completed) ∧
  defs_kept half_built_merge merge_completed.
Proof.
  destruct (reads_never_overwrite 7 line) as (Hrv & _ & _).
  destruct (reads_never_overwrite 5 half_built_merge) as (_ & Hapo & _).
  split; [reflexivity|]. split; [apply (Hrv x 3 (Ok 0)); reflexivity|].
  split; [reflexivity|]. apply (Hapo x 2 (Ok 2)); reflexivity.
Defined.

(** ** Reads return handles of objects *)

Lemma defs_allocated_grow s s' :
  defs_allocated s → blocks s' = blocks s →
  length (nodes s) ≤ length (nodes s') →
  defs_allocated s'.
Proof.
  intros Hwf Hb Hn b blk w val Hblk Hd. rewrite Hb in Hblk.
  specialize (Hwf _ _ _ _ Hblk Hd). lia.
Qed.

Lemma defs_allocated_written s v b val blk :
  defs_allocated s → val < length (nodes s) →
  blocks s !! b = Some blk →
  defs_allocated (written v b val blk s).
Proof.
  intros Hwf Hval Hb b' blk' w x Hb' Hd'. cbn.
  destruct (decide (b' = b)) as [->|Hne].
  - rewrite (written_lookup v b val blk s Hb) in Hb'. simplify_eq.
    simpl in Hd'. destruct (decide (name v = w)) as [<-|Hw].
    + rewrite defs_lookup_insert_eq in Hd'. by simplify_eq.
    + rewrite defs_lookup_insert_ne in Hd' by done. by eapply Hwf.
  - unfold written in Hb'; cbn in Hb'.
    rewrite list_lookup_insert_ne in Hb' by done. by eapply Hwf.
Qed.

Lemma defs_allocated_readers n :
  (∀ v b s val s',
     defs_allocated s → readVariable n v b s = (Ok val, s') →
     defs_allocated s' ∧ val < length (nodes s')) ∧
  (∀ v b s val s',
     defs_allocated s → readVariableRecursive n v b s = (Ok val, s') →
     defs_allocated s' ∧ val < length (nodes s')) ∧
  (∀ v phi s val s',
     defs_allocated s → addPhiOperands n v phi s = (Ok val, s') →
     defs_allocated s' ∧ val < length (nodes s')).
Proof.
  induction n as [|n (IHrv & IHrvr & IHapo)].
  { split; [|split]; intros; discriminate. }
  split; [|split].
  - intros v b s val s' Hwf. simpl. intros H.
    apply bind_ok_inv in H as (blk & s0 & Hb & H).
    unfold lookup_block in Hb. destruct (blocks s !! b) eqn:Eb; simplify_eq.
    destruct (defs blk !! name v) eqn:Ed.
    + unfold ret in H. simplify_eq. split; [done|]. by eapply Hwf.
    + by eapply IHrvr.
  - intros v b s val s' Hwf. simpl. intros H.
    apply bind_ok_inv in H as (blk & s0 & Hb & H).
    unfold lookup_block in Hb. destruct (blocks s !! b) eqn:Eb; simplify_eq.
    apply bind_ok_inv in H as (oval & s1 & Hbr & H).
    apply bind_ok_inv in H as (val' & s2 & Hl & H).
    destruct oval as [val0|]; [|discriminate Hl].
    unfold local, ret in Hl. simplify_eq.
    apply bind_ok_inv in H as ([] & s3 & Hw & H).
    unfold ret in H. simplify_eq.
    assert (defs_allocated s2 ∧ val < length (nodes s2)) as [Hwf2 Hval].
    { destruct (sealed blk); simpl in Hbr.
      - destruct (length (preds blk) =? 1).
        + apply bind_ok_inv in Hbr as (p & s4 & Hp & Hbr).
          assert (s4 = s0) as ->
            by (unfold first_pred in Hp; destruct (preds blk);
                unfold ret in Hp; by simplify_eq).
          apply bind_ok_inv in Hbr as (val1 & s5 & Hread & Hbr).
          unfold ret in Hbr. simplify_eq. by eapply IHrv.
        + apply bind_ok_inv in Hbr as (phi & s4 & Hphi & _).
          discriminate Hphi.
      - apply bind_ok_inv in Hbr as (phi & s4 & Hphi & _).
        discriminate Hphi. }
    apply writeVariable_inv in Hw as [(blk2 & Hb2 & _ & ->)|(_ & ? & _)];
      [|done].
    split; [by apply defs_allocated_written|done].
  - intros v phi s val s' Hwf. simpl. intros H.
    apply bind_ok_inv in H as (blk & s0 & Hblk & H).
    assert (s0 = s) as ->.
    { unfold get_block, bind, lookup_node, ret, raise in Hblk.
      repeat case_match; by simplify_eq. }
    apply bind_ok_inv in H as (b & s0 & Hb & H).
    assert (s0 = s) as ->.
    { unfold lookup_block in Hb. case_match; by simplify_eq. }
    apply bind_ok_inv in H as ([] & s1 & Hloop & H).
    assert (defs_allocated s1) as Hwf1.
    { clear H Hblk Hb. revert s Hwf Hloop.
      induction (preds b) as [|p ps IH]; intros s Hwf Hloop.
      - simpl in Hloop. unfold ret in Hloop. by simplify_eq.
      - simpl in Hloop.
        apply bind_ok_inv in Hloop as ([] & s2 & Hbody & Hloop).
        apply bind_ok_inv in Hbody as (op & s3 & Hread & Happ).
        destruct (IHrv _ _ _ _ _ Hwf Hread) as [Hwf3 _].
        apply appendOperand_inv in Happ as (nm & ops & b0 & us & Hphi & ->).
        eapply IH; [|done].
        eapply defs_allocated_grow; [done|done|].
        cbn. by rewrite length_insert. }
    apply tryRemoveTrivialPhi_returns in H as (-> & -> & ops & Hops & _).
    split; [done|].
    apply get_operands_operands_of in Hops. unfold operands_of in Hops.
    destruct (nodes s1 !! phi) eqn:E; [|done]. by eapply lookup_lt_Some.
Qed.

(** X9: reads hand out no dangling handle.  In a state in which every
    def-map entry is the handle of an object, whatever [readVariable],
    [readVariableRecursive] or [addPhiOperands] returns is the handle of
    an object, and every def-map entry still is one afterwards. *)
Theorem reads_return_objects n v s val s' :
  defs_allocated s →
  (∃ b, readVariable n v b s = (Ok val, s')) ∨
  (∃ b, readVariableRecursive n v b s = (Ok val, s')) ∨
  (∃ phi, addPhiOperands n v phi s = (Ok val, s')) →
  is_Some (nodes s' !! val) ∧ defs_allocated s'.
Proof.
  intros Hwf H. destruct (defs_allocated_readers n) as (Hrv & Hrvr & Hapo).
  assert (defs_allocated s' ∧ val < length (nodes s')) as [Hwf' Hval].
  { destruct H as [(b & H)|[(b & H)|(phi & H)]]; eauto. }
  split; [by apply lookup_lt_is_Some|done].
Qed.

Lemma line_defs_allocated : defs_allocated line.
Proof.
  intros b blk w val Hb Hd.
  destruct b as [|[|[|[|b]]]]; simpl in Hb; simplify_eq;
    unfold lookup, pydict_lookup in Hd; simpl in Hd; [|done..].
  destruct (decide ("x" = w)); simplify_eq. simpl. lia.
Defined.

Lemma reads_return_objects_witness :
  defs_allocated line ∧
  readVariable 7 x 3 line = (Ok 0, line_read) ∧
  is_Some (nodes line_read !! 0) ∧ defs_allocated line_read.
Proof.
  split; [exact line_defs_allocated|]. split; [reflexivity|].
  apply (reads_return_objects 7 x line 0 line_read line_defs_allocated).
  left. exists 3. reflexivity.
Defined.

(** ** Cycles of single-predecessor blocks *)

(** X10: the single-predecessor shortcut does not break cycles.  In a
    cycle of sealed blocks with one predecessor each, none of which
    defines [v], [readVariable(v, b)] recurses without end and without
    touching the state: no amount of fuel lets it return or raise. *)
Theorem readVariable_trapped s v (B : blockref → Prop) :
  trap s v B →
  ∀ n b, B b → readVariable n v b s = (OutOfFuel, s).
Proof.
  intros Htrap n. induction n as [n IH] using lt_wf_ind. intros b Hb.
  destruct n as [|[|n]]; [done| |].
  - destruct (Htrap b Hb) as (blk & p & Hblk & Hd & _).
    simpl. by rewrite (bind_ok _ _ _ _ _ (lookup_block_ok _ _ _ Hblk)), Hd.
  - destruct (Htrap b Hb) as (blk & p & Hblk & Hd & Hsealed & Hp & HBp).
    change (readVariable (S (S n)) v b s)
      with ((let* b0 := lookup_block b in
             match defs b0 !! name v with
             | Some x0 => ret x0
             | None => readVariableRecursive (S n) v b
             end) s).
    rewrite (bind_ok _ _ _ _ _ (lookup_block_ok _ _ _ Hblk)), Hd.
    rewrite (readVariableRecursive_single n v b s blk p) by done.
    unfold bind at 1. by rewrite (IH n) by (lia || done).
Qed.

Lemma two_cycle_trap : trap two_cycle x (λ b, b < 2).
Proof.
  intros b Hb. destruct b as [|[|b]]; [| |lia].
  - exists (MkBlock [1] ∅ true), 1. repeat split; lia.
  - exists (MkBlock [0] ∅ true), 0. repeat split; lia.
Defined.

Lemma readVariable_trapped_witness :
  trap two_cycle x (λ b, b < 2) ∧
  readVariable 1000 x 0 two_cycle = (OutOfFuel, two_cycle).
Proof.
  split; [exact two_cycle_trap|].
  apply (readVariable_trapped two_cycle x (λ b, b < 2) two_cycle_trap
           1000 0).
  lia.
Defined.

(** ** Every read that needs a phi *)

(** X13: a read that needs a phi raises.  In a block that does not
    define [v] and that is unsealed, or sealed with a predecessor count
    other than one, [readVariable(v, b)] ends at the constructor call
    [Phi(block)] with [TypeError] and has changed nothing: no phi is
    built or registered, and [b.defs] is not written. *)
Theorem read_needing_phi_raises n v b s blk :
  blocks s !! b = Some blk →
  defs blk !! name v = None →
  sealed blk = false ∨ length (preds blk) ≠ 1 →
  readVariable (2 + n) v b s = (Raise TypeError, s).
Proof.
  intros Hb Hnone Hcase.
  change (readVariable (2 + n) v b s)
    with ((let* b0 := lookup_block b in
           match defs b0 !! name v with
           | Some x0 => ret x0
           | None => readVariableRecursive (S n) v b
           end) s).
  rewrite (bind_ok _ _ _ _ _ (lookup_block_ok _ _ _ Hb)), Hnone.
  by eapply readVariableRecursive_new_phi.
Qed.

Lemma read_needing_phi_raises_witness :
  readVariable 2 x 0 fresh_block = (Raise TypeError, fresh_block) ∧
  readVariable 2 x 3 diamond = (Raise TypeError, diamond) ∧
  readVariable 2 x 0 unreachable = (Raise TypeError, unreachable).
Proof.
  split; [|split].
  - apply (read_needing_phi_raises 0 x 0 fresh_block (MkBlock [] ∅ false));
      [reflexivity|reflexivity|by left].
  - apply (read_needing_phi_raises 0 x 3 diamond (MkBlock [1; 2] ∅ true));
      [reflexivity|reflexivity|right; simpl; lia].
  - apply (read_needing_phi_raises 0 x 0 unreachable (MkBlock [] ∅ true));
      [reflexivity|reflexivity|right; simpl; lia].
Defined.

(** ** Completing a phi over local definitions *)

(** The loop of [addPhiOperands] over predecessors that define [v]
    locally appends their values and changes nothing else. *)
Lemma for_each_preds_define n v phi s0 ps vals :
  preds_define s0 v ps vals →
  ∀ s nm ops b us,
  blocks s = blocks s0 →
  nodes s !! phi = Some (Phi nm ops b us) →
  for_each ps (λ pred,
    let* op := readVariable (S n) v pred in appendOperand phi op) s
  = (Ok tt, set_nodes (λ h, <[phi := Phi nm (ops ++ vals) b us]> h) s).
Proof.
  induction 1 as [|p val ps vals (blk & Hb & Hd) Hrest IH];
    intros s nm ops b us Hbs Hphi; simpl.
  - rewrite app_nil_r. unfold ret, set_nodes. f_equal.
    destruct s as [h bs r]. simpl in *. f_equal.
    symmetry. by apply list_insert_id.
  - assert (Hread : readVariable (S n) v p s = (Ok val, s)).
    { eapply readVariable_local; [|done]. by rewrite Hbs. }
    assert (Happ : appendOperand phi val s
              = (Ok tt, set_nodes
                   (λ h, <[phi := Phi nm (ops ++ [val]) b us]> h) s)).
    { unfold appendOperand.
      by rewrite (bind_ok _ _ _ _ _ (lookup_node_ok _ _ _ Hphi)). }
    erewrite bind_ok; [|by rewrite (bind_ok _ _ _ _ _ Hread)].
    rewrite (IH _ nm (ops ++ [val]) b us).
    + f_equal. unfold set_nodes. cbn. f_equal.
      rewrite list_insert_insert_eq. by rewrite <- app_assoc.
    + done.
    + cbn. apply list_lookup_insert_eq. by eapply lookup_lt_Some.
Qed.

(** X15: completion where it succeeds.  If the predecessors of the block
    of a phi all define [v] locally and the phi's operands, old and new
    together, hold two distinct values other than the phi, then
    [addPhiOperands(v, phi)] appends the predecessors' values in the order
    of [preds], changes nothing else and returns the phi. *)
Theorem addPhiOperands_completes n v phi s nm ops b us blk vals :
  nodes s !! phi = Some (Phi nm ops b us) →
  blocks s !! b = Some blk →
  preds_define s v (preds blk) vals →
  merges_two phi (ops ++ vals) →
  addPhiOperands (2 + n) v phi s
  = (Ok phi, set_nodes (λ h, <[phi := Phi nm (ops ++ vals) b us]> h) s).
Proof.
  intros Hphi Hb Hdef Hmerge.
  set (s1 := set_nodes (λ h, <[phi := Phi nm (ops ++ vals) b us]> h) s).
  assert (Hloop : for_each (preds blk) (λ pred,
      let* op := readVariable (S n) v pred in appendOperand phi op) s
      = (Ok tt, s1))
    by (by apply (for_each_preds_define n v phi s _ _ Hdef)).
  assert (Hphi1 : nodes s1 !! phi = Some (Phi nm (ops ++ vals) b us)).
  { cbn. apply list_lookup_insert_eq. by eapply lookup_lt_Some. }
  assert (Htry : tryRemoveTrivialPhi (S n) phi s1 = (Ok phi, s1)).
  { apply (tryRemoveTrivialPhi_nontrivial n phi s1 (ops ++ vals)).
    - unfold get_operands.
      by rewrite (bind_ok _ _ _ _ _ (lookup_node_ok _ _ _ Hphi1)).
    - by apply scan_operands_nontrivial. }
  change (2 + n) with (S (S n)).
  rewrite (addPhiOperands_unfold (S n) v phi s _ _ _ _ _ Hphi Hb).
  by rewrite (bind_ok _ _ _ _ _ Hloop).
Qed.

Lemma half_built_merge_preds_define :
  preds_define half_built_merge x [1; 2] [0; 1].
Proof.
  repeat constructor.
  - by exists (MkBlock [0] {["x" := 0]} true).
  - by exists (MkBlock [0] {["x" := 1]} true).
Defined.

Lemma addPhiOperands_completes_witness :
  nodes half_built_merge !! 2 = Some (Phi "" [] 3 []) ∧
  blocks half_built_merge !! 3 = Some (MkBlock [1; 2] ∅ false) ∧
  preds_define half_built_merge x [1; 2] [0; 1] ∧
  merges_two 2 ([] ++ [0; 1]) ∧
  addPhiOperands 2 x 2 half_built_merge = (Ok 2, merge_completed).
Proof.
  assert (H1 : nodes half_built_merge !! 2 = Some (Phi "" [] 3 []))
    by reflexivity.
  assert (H2 : blocks half_built_merge !! 3
               = Some (MkBlock [1; 2] ∅ false)) by reflexivity.
  assert (H3 : merges_two 2 ([] ++ [0; 1])).
  { exists 0, 1. repeat split; try lia; apply list_elem_of_In; simpl; tauto. }
  split; [exact H1|]. split; [exact H2|].
  split; [exact half_built_merge_preds_define|]. split; [exact H3|].
  exact (addPhiOperands_completes 0 x 2 half_built_merge _ _ _ _ _ _
           H1 H2 half_built_merge_preds_define H3).
Defined.

(** ** Re-reading *)

(** X17: a read that returned is repeatable.  When [readVariable(v, b)]
    returns a value, a second call right after it returns the same handle
    and leaves the state as it is: the value is the def-map entry of [b]
    under [v.name], found there or written by [readVariableRecursive]
    just before it returned. *)
Theorem readVariable_again_same n v b s val s' :
  readVariable n v b s = (Ok val, s') →
  ∀ m, readVariable (S m) v b s' = (Ok val, s').
Proof.
  destruct n as [|n]; [discriminate|]. simpl. intros H m.
  apply bind_ok_inv in H as (blk & s1 & Hb & H).
  unfold lookup_block in Hb.
  destruct (blocks s !! b) as [blk0|] eqn:Eb; simplify_eq.
  destruct (defs blk !! name v) as [x0|] eqn:Ed.
  - unfold ret in H. simplify_eq. by eapply readVariable_local.
  - apply readVariableRecursive_memo in H as (blk' & Hb' & Hd').
    by eapply readVariable_local.
Qed.

Lemma readVariable_again_same_witness :
  readVariable 7 x 3 line = (Ok 0, line_read) ∧
  readVariable 1 x 3 line_read = (Ok 0, line_read).
Proof.
  split; [reflexivity|].
  apply (readVariable_again_same 7 x 3 line 0 line_read).
  reflexivity.
Defined.

(** ** Fuel *)

Lemma refines_refl {A} (c : M A) : refines c c.
Proof. by intros s r s' H _. Qed.

Lemma refines_out_of_fuel {A} (c : M A) : refines out_of_fuel c.
Proof. intros s r s' [= <- <-] Hr. done. Qed.

Lemma refines_bind {A B} (c c' : M A) (k k' : A → M B) :
  refines c c' → (∀ a, refines (k a) (k' a)) →
  refines (bind c k) (bind c' k').
Proof.
  intros Hc Hk s r s' H Hr. unfold bind in *.
  destruct (c s) as [[a|e|] s1] eqn:E; simplify_eq.
  - rewrite (Hc _ _ _ E) by done. by apply Hk.
  - by rewrite (Hc _ _ _ E).
Qed.

Lemma refines_for_each {A} (l : list A) (body body' : A → M unit) :
  (∀ a, refines (body a) (body' a)) →
  refines (for_each l body) (for_each l body').
Proof.
  intros Hbody. induction l as [|a l IH]; simpl; [apply refines_refl|].
  apply refines_bind; auto.
Qed.

(** More depth does not change a comparison that ended. *)
Lemma all2_mono (f g : addr → addr → outcome bool) l1 l2 :
  (∀ a b, f a b ≠ OutOfFuel → g a b = f a b) →
  all2 f l1 l2 ≠ OutOfFuel → all2 g l1 l2 = all2 f l1 l2.
Proof.
  intros Hfg. revert l2.
  induction l1 as [|a l1 IH]; intros [|b l2]; simpl; try done.
  intros H. destruct (f a b) as [[|]|e|] eqn:E; try done;
    rewrite (Hfg a b), E by (by rewrite E); [by apply IH|done..].
Qed.

Lemma eq_list_mono (f g : addr → addr → outcome bool) l1 l2 :
  (∀ a b, f a b ≠ OutOfFuel → g a b = f a b) →
  eq_list f l1 l2 ≠ OutOfFuel → eq_list g l1 l2 = eq_list f l1 l2.
Proof.
  intros Hfg. unfold eq_list.
  destruct (length l1 =? length l2); [by apply all2_mono|done].
Qed.

Lemma eq_items_mono (f g : addr → addr → outcome bool) d1 d2 :
  (∀ a b, f a b ≠ OutOfFuel → g a b = f a b) →
  eq_items f d1 d2 ≠ OutOfFuel → eq_items g d1 d2 = eq_items f d1 d2.
Proof.
  intros Hfg. induction d1 as [|[k v1] d1 IH]; simpl; [done|].
  destruct (dict_get k d2) as [v2|]; [|done].
  intros H. destruct (f v1 v2) as [[|]|e|] eqn:E; try done;
    rewrite (Hfg v1 v2), E by (by rewrite E); [by apply IH|done..].
Qed.

Lemma eq_dict_mono (f g : addr → addr → outcome bool) d1 d2 :
  (∀ a b, f a b ≠ OutOfFuel → g a b = f a b) →
  eq_dict f d1 d2 ≠ OutOfFuel → eq_dict g d1 d2 = eq_dict f d1 d2.
Proof.
  intros Hfg. unfold eq_dict.
  destruct (length (items d1) =? length (items d2));
    [by apply eq_items_mono|done].
Qed.

Lemma py_eq_unfold n s a b :
  py_eq (S n) s a b
  = if decide (a = b) then Ok true else
    match nodes s !! a, nodes s !! b with
    | Some Undef, Some Undef => Ok true
    | Some (Operation nm1 ops1), Some (Operation nm2 ops2) =>
        if String.eqb nm1 nm2 then eq_list (py_eq n s) ops1 ops2
        else Ok false
    | Some (Phi nm1 ops1 b1 us1), Some (Phi nm2 ops2 b2 us2) =>
        if String.eqb nm1 nm2 then
          match eq_list (py_eq n s) ops1 ops2 with
          | Ok true =>
              match py_eq_block n s b1 b2 with
              | Ok true => eq_list (py_eq n s) us1 us2
              | r => r
              end
          | r => r
          end
        else Ok false
    | Some _, Some _ => Ok false
    | _, _ => Raise Dangling
    end.
Proof. reflexivity. Qed.

Lemma py_eq_block_unfold n s b1 b2 :
  py_eq_block (S n) s b1 b2
  = if decide (b1 = b2) then Ok true else
    match blocks s !! b1, blocks s !! b2 with
    | Some blk1, Some blk2 =>
        match eq_list (py_eq_block n s) (preds blk1) (preds blk2) with
        | Ok true =>
            match eq_dict (py_eq n s) (defs blk1) (defs blk2) with
            | Ok true => Ok (eqb (sealed blk1) (sealed blk2))
            | r => r
            end
        | r => r
        end
    | _, _ => Raise Dangling
    end.
Proof. reflexivity. Qed.

Lemma py_eq_mono n s :
  (∀ a b, py_eq n s a b ≠ OutOfFuel → py_eq (S n) s a b = py_eq n s a b) ∧
  (∀ b1 b2, py_eq_block n s b1 b2 ≠ OutOfFuel →
     py_eq_block (S n) s b1 b2 = py_eq_block n s b1 b2).
Proof.
  induction n as [|n [IHv IHb]].
  { split; intros a b; rewrite ?py_eq_unfold, ?py_eq_block_unfold; simpl;
      by destruct (decide (a = b)). }
  split.
  - intros a b. rewrite (py_eq_unfold (S n)), (py_eq_unfold n).
    destruct (decide (a = b)); [done|].
    destruct (nodes s !! a) as [[|nm1 ops1|nm1 ops1 b1 us1]|];
      destruct (nodes s !! b) as [[|nm2 ops2|nm2 ops2 b2 us2]|]; try done.
    + destruct (String.eqb nm1 nm2); [|done..]. by apply eq_list_mono.
    + destruct (String.eqb nm1 nm2); [|done..]. intros H.
      destruct (eq_list (py_eq n s) ops1 ops2) as [[|]|e|] eqn:E1;
        try done; rewrite (eq_list_mono _ _ _ _ IHv), E1 by (by rewrite E1);
        [|done..].
      destruct (py_eq_block n s b1 b2) as [[|]|e|] eqn:E2;
        try done; rewrite (IHb b1 b2), E2 by (by rewrite E2); [|done..].
      by apply eq_list_mono.
  - intros b1 b2.
    rewrite (py_eq_block_unfold (S n)), (py_eq_block_unfold n).
    destruct (decide (b1 = b2)); [done|].
    destruct (blocks s !! b1) as [blk1|]; [|done..].
    destruct (blocks s !! b2) as [blk2|]; [|done..]. intros H.
    destruct (eq_list (py_eq_block n s) (preds blk1) (preds blk2))
      as [[|]|e|] eqn:E1;
      try done; rewrite (eq_list_mono _ _ _ _ IHb), E1 by (by rewrite E1);
      [|done..].
    destruct (eq_dict (py_eq n s) (defs blk1) (defs blk2))
      as [[|]|e|] eqn:E2;
      try done; by rewrite (eq_dict_mono _ _ _ _ IHv), E2 by (by rewrite E2).
Qed.

Lemma list_remove_mono (f g : addr → outcome bool) l :
  (∀ a, f a ≠ OutOfFuel → g a = f a) →
  list_remove f l ≠ OutOfFuel → list_remove g l = list_remove f l.
Proof.
  intros Hfg. induction l as [|a l IH]; simpl; [done|]. intros H.
  destruct (f a) as [[|]|e|] eqn:E; try done;
    rewrite (Hfg a), E by (by rewrite E); [done| |done].
  destruct (list_remove f l) as [[l'|]|e|] eqn:El; try done;
    by rewrite IH.
Qed.

Lemma refines_users_remove n phi x0 :
  refines (users_remove n phi x0) (users_remove (S n) phi x0).
Proof.
  unfold users_remove. apply refines_bind; [apply refines_refl|].
  intros [| |nm ops b us]; try apply refines_refl.
  intros s r s' H Hr.
  rewrite (list_remove_mono (λ item, py_eq n s item x0)
             (λ item, py_eq (S n) s item x0)).
  - done.
  - intros a. apply py_eq_mono.
  - intros Hf. rewrite Hf in H. by simplify_eq.
Qed.

Lemma refines_tryRemoveTrivialPhi n : ∀ phi,
  refines (tryRemoveTrivialPhi n phi) (tryRemoveTrivialPhi (S n) phi).
Proof.
  induction n as [|n IH]; intros phi; [apply refines_out_of_fuel|].
  change (tryRemoveTrivialPhi (S (S n)) phi)
    with (let* ops := get_operands phi in
          match scan_operands phi None ops with
          | NonTrivial => ret phi
          | Same same =>
              let* same := match same with
                           | None => new_Undef
                           | Some op => ret op
                           end in
              let* users := users_remove (S n) phi phi in
              replaceBy phi same >>
              let* uses := iterate users in
              for_each uses (λ use,
                let* is_phi := isinstance_Phi use in
                if is_phi then tryRemoveTrivialPhi (S n) use >> ret tt
                else ret tt) >>
              ret same
          end).
  simpl. apply refines_bind; [apply refines_refl|]. intros ops.
  destruct (scan_operands phi None ops); [apply refines_refl|].
  apply refines_bind; [apply refines_refl|]. intros same'.
  apply refines_bind; [apply refines_users_remove|]. intros users.
  apply refines_bind; [apply refines_refl|]. intros _.
  apply refines_bind; [apply refines_refl|]. intros uses.
  apply refines_bind; [|intros _; apply refines_refl].
  apply refines_for_each. intros use.
  apply refines_bind; [apply refines_refl|]. intros [|]; [|apply refines_refl].
  apply refines_bind; [apply IH|]. intros _. apply refines_refl.
Qed.

Lemma refines_readers n :
  (∀ v b, refines (readVariable n v b) (readVariable (S n) v b)) ∧
  (∀ v b, refines (readVariableRecursive n v b)
            (readVariableRecursive (S n) v b)) ∧
  (∀ v phi, refines (addPhiOperands n v phi) (addPhiOperands (S n) v phi)).
Proof.
  induction n as [|n (IHrv & IHrvr & IHapo)].
  { split; [|split]; intros ??; apply refines_out_of_fuel. }
  split; [|split].
  - intros v b.
    change (refines
      (let* b0 := lookup_block b in
       match defs b0 !! name v with
       | Some x0 => ret x0
       | None => readVariableRecursive n v b
       end)
      (let* b0 := lookup_block b in
       match defs b0 !! name v with
       | Some x0 => ret x0
       | None => readVariableRecursive (S n) v b
       end)).
    apply refines_bind; [apply refines_refl|]. intros blk.
    destruct (defs blk !! name v); [apply refines_refl|apply IHrvr].
  - intros v b.
    change (refines
      (let* b0 := lookup_block b in
       let* val :=
         if negb (sealed b0) then
           let* phi := new_Phi b in
           registry_set b v phi >> ret None
         else if length (preds b0) =? 1 then
           let* p := first_pred b0 in
           let* val := readVariable n v p in ret (Some val)
         else
           let* val := new_Phi b in
           writeVariable v b val >>
           let* val := addPhiOperands n v val in ret (Some val) in
       let* val := local val in
       writeVariable v b val >> ret val)
      (let* b0 := lookup_block b in
       let* val :=
         if negb (sealed b0) then
           let* phi := new_Phi b in
           registry_set b v phi >> ret None
         else if length (preds b0) =? 1 then
           let* p := first_pred b0 in
           let* val := readVariable (S n) v p in ret (Some val)
         else
           let* val := new_Phi b in
           writeVariable v b val >>
           let* val := addPhiOperands (S n) v val in ret (Some val) in
       let* val := local val in
       writeVariable v b val >> ret val)).
    apply refines_bind; [apply refines_refl|]. intros blk.
    apply refines_bind; [|intros ?; apply refines_refl].
    destruct (negb (sealed blk)); [apply refines_refl|].
    destruct (length (preds blk) =? 1).
    + apply refines_bind; [apply refines_refl|]. intros p.
      apply refines_bind; [apply IHrv|]. intros ?. apply refines_refl.
    + apply refines_bind; [apply refines_refl|]. intros phi.
      apply refines_bind; [apply refines_refl|]. intros _.
      apply refines_bind; [apply IHapo|]. intros ?. apply refines_refl.
  - intros v phi.
    change (refines
      (let* blk := get_block phi in
       let* b := lookup_block blk in
       for_each (preds b) (λ pred,
         let* op := readVariable n v pred in appendOperand phi op) >>
       tryRemoveTrivialPhi n phi)
      (let* blk := get_block phi in
       let* b := lookup_block blk in
       for_each (preds b) (λ pred,
         let* op := readVariable (S n) v pred in appendOperand phi op) >>
       tryRemoveTrivialPhi (S n) phi)).
    apply refines_bind; [apply refines_refl|]. intros blk.
    apply refines_bind; [apply refines_refl|]. intros b.
    apply refines_bind; [|intros _; apply refines_tryRemoveTrivialPhi].
    apply refines_for_each. intros pred.
    apply refines_bind; [apply IHrv|]. intros op. apply refines_refl.
Qed.

Lemma refines_sealBlock n b : refines (sealBlock n b) (sealBlock (S n) b).
Proof.
  unfold sealBlock. apply refines_bind; [apply refines_refl|]. intros d.
  apply refines_bind; [|intros _; apply refines_refl].
  apply refines_for_each. intros v.
  apply refines_bind; [apply refines_refl|]. intros phi.
  apply refines_bind; [apply refines_readers|]. intros _. apply refines_refl.
Qed.

Lemma refines_trans {A} (c1 c2 c3 : M A) :
  refines c1 c2 → refines c2 c3 → refines c1 c3.
Proof. intros H1 H2 s r s' H Hr. apply H2; [|done]. by apply H1. Qed.

Lemma refines_le {A} (f : nat → M A) :
  (∀ n, refines (f n) (f (S n))) → ∀ n m, n ≤ m → refines (f n) (f m).
Proof.
  intros Hstep n m Hle. induction Hle as [|m _ IH]; [apply refines_refl|].
  eapply refines_trans; [exact IH|apply Hstep].
Qed.

(** X14: the outcome of a call does not depend on the fuel it is given,
    once that is enough: a call that returns or raises with fuel [n]
    ends the same way, in the same state, with any fuel above [n].  So
    every result stated for some fuel is a result of the Python call, and
    running out of every fuel is the Python call not ending. *)
Theorem more_fuel_same_result n m :
  n ≤ m →
  (∀ v b, refines (readVariable n v b) (readVariable m v b)) ∧
  (∀ v b, refines (readVariableRecursive n v b)
            (readVariableRecursive m v b)) ∧
  (∀ v phi, refines (addPhiOperands n v phi) (addPhiOperands m v phi)) ∧
  (∀ phi, refines (tryRemoveTrivialPhi n phi) (tryRemoveTrivialPhi m phi)) ∧
  (∀ b, refines (sealBlock n b) (sealBlock m b)).
Proof.
  intros Hle. repeat split; intros.
  - apply (refines_le (λ k, readVariable k v b)); [|done].
    intros k. apply refines_readers.
  - apply (refines_le (λ k, readVariableRecursive k v b)); [|done].
    intros k. apply refines_readers.
  - apply (refines_le (λ k, addPhiOperands k v phi)); [|done].
    intros k. apply refines_readers.
  - apply (refines_le (λ k, tryRemoveTrivialPhi k phi)); [|done].
    intros k. apply refines_tryRemoveTrivialPhi.
  - apply (refines_le (λ k, sealBlock k b)); [|done].
    intros k. apply refines_sealBlock.
Qed.

Lemma more_fuel_same_result_witness :
  7 ≤ 100 ∧
  readVariable 7 x 3 line = (Ok 0, line_read) ∧
  readVariable 100 x 3 line = (Ok 0, line_read).
Proof.
  assert (H1 : 7 ≤ 100) by lia.
  assert (H2 : readVariable 7 x 3 line = (Ok 0, line_read))
    by reflexivity.
  split; [exact H1|]. split; [exact H2|].
  destruct (more_fuel_same_result 7 100 H1) as (Hrv & _).
  apply (Hrv x 3 line (Ok 0) line_read H2). discriminate.
Defined.
